(** * TamboReactFlow: position store, viewport fitting, drag controller,
      edge path synthesis and error boundary of
      [cli/src/registry/react-flow/react-flow.tsx].

    The component is a React function component with three pieces of state
    ([viewBox], [dragging], [nodePositions]), two effects and three pointer
    handlers.  It is embedded here with explicit state passing: every effect
    and handler is a function from the component state to the component
    state, and the JSX that the component returns is a value of a small
    virtual-DOM type.

    JavaScript numbers are modelled as exact rationals ([Qc]); IEEE-754
    rounding, NaN and the infinities are outside the model.  The [Map] that
    holds the positions is a finite map keyed by the node identifier. *)

From Stdlib Require Import QArith Qcanon Ascii String.
From stdpp Require Import base numbers option list strings gmap fin_maps.

Local Open Scope Qc_scope.

Set Warnings "-clear-no-such-hyp".

(** ** Numbers *)

Abbreviation number := Qc.

(** An integer literal of the source, as a number. *)
Definition num (z : Z) : number := Qc_of_Z z.

(** [Math.max(a, b)] and [Math.min(a, b)] on two arguments. *)
Definition max2 (a b : number) : number := if decide (a ≤ b) then b else a.
Definition min2 (a b : number) : number := if decide (a ≤ b) then a else b.

(** [Math.min(...xs)] and [Math.max(...xs)].  On an empty argument list
    JavaScript answers with an infinity, which is [None] here. *)
Definition Math_min (xs : list number) : option number :=
  match xs with
  | [] => None
  | x :: xs' => Some (foldl min2 x xs')
  end.

Definition Math_max (xs : list number) : option number :=
  match xs with
  | [] => None
  | x :: xs' => Some (foldl max2 x xs')
  end.

(** ** Template literals

    A template literal is kept as the sequence of its literal chunks and of
    its interpolated numbers. *)

Inductive piece : Type :=
  | Lit (s : string)
  | Num (n : number).

Abbreviation template := (list piece).

(** ** Data model (the zod schemas) *)

Record Position : Type := mkPosition { pos_x : number; pos_y : number }.

Record NodeStyle : Type := mkNodeStyle {
  ns_backgroundColor : option string;
  ns_borderColor : option string;
  ns_borderWidth : option number;
  ns_borderRadius : option number;
  ns_color : option string;
  ns_width : option number;
  ns_height : option number;
  ns_padding : option number
}.

(** [node_type] and [edge_type] hold the string that arrives at run time;
    the schema restricts it to an enumeration, the code indexes a
    [Record<string, _>] and switches on it. *)
Record FlowNode : Type := mkFlowNode {
  node_id : string;
  node_label : string;
  node_position : Position;
  node_type : option string;
  node_style : option NodeStyle
}.

Record EdgeStyle : Type := mkEdgeStyle {
  es_stroke : option string;
  es_strokeWidth : option number
}.

Record FlowEdge : Type := mkFlowEdge {
  edge_id : string;
  edge_source : string;
  edge_target : string;
  edge_label : option string;
  edge_type : option string;
  edge_animated : option bool;
  edge_style : option EdgeStyle
}.

Inductive FlowVariant : Type := VariantDefault | VariantSolid | VariantBordered.
Inductive FlowSize : Type := SizeDefault | SizeSm | SizeLg | SizeFull.

(** The props after destructuring: [fitView] and [interactive] already carry
    their defaults ([true] and [false]) when the caller left them out. *)
Record Props : Type := mkProps {
  className : option string;
  variant : option FlowVariant;
  size : option FlowSize;
  nodes : option (list FlowNode);
  edges : option (list FlowEdge);
  title : option string;
  fitView : bool;
  interactive : bool
}.

(** ** Component state *)

Record DragSession : Type := mkDrag {
  nodeId : string;
  startX : number;
  startY : number;
  nodeStartX : number;
  nodeStartY : number
}.

Record State : Type := mkState {
  viewBox : template;
  dragging : option DragSession;
  nodePositions : gmap string Position
}.

Definition setViewBox (v : template) (st : State) : State :=
  mkState v (dragging st) (nodePositions st).
Definition setDragging (d : option DragSession) (st : State) : State :=
  mkState (viewBox st) d (nodePositions st).
Definition setNodePositions
    (f : gmap string Position → gmap string Position) (st : State) : State :=
  mkState (viewBox st) (dragging st) (f (nodePositions st)).

(** [useState] initial values. *)
Definition initial_state : State :=
  mkState [Lit "0 0 800 600"] None ∅.

(** ** Position store initialisation (first effect) *)

(** The body of [nodes.forEach]: one [posMap.set] per node, in order. *)
Definition posMap_of (ns : list FlowNode) : gmap string Position :=
  foldl (λ posMap node,
           <[node_id node :=
               mkPosition (pos_x (node_position node))
                          (pos_y (node_position node))]> posMap)
        ∅ ns.

(** [nodes && nodes.length > 0] *)
Definition has_nodes (ns : option (list FlowNode)) : bool :=
  match ns with
  | Some l => bool_decide (0 < length l)%nat
  | None => false
  end.

Definition initPositionsEffect (p : Props) (st : State) : State :=
  if has_nodes (nodes p)
  then setNodePositions (λ _, posMap_of (default [] (nodes p))) st
  else st.

(** ** Viewport fitting (second effect) *)

(** [!nodes || nodes.length === 0] *)
Definition no_nodes (ns : option (list FlowNode)) : bool :=
  match ns with
  | Some l => bool_decide (length l = 0)%nat
  | None => true
  end.

(** [nodePositions.size] *)
Definition Map_size (m : gmap string Position) : nat := base.size m.

(** [Array.from(nodePositions.values())] *)
Definition Map_values (m : gmap string Position) : list Position :=
  (map_to_list m).*2.

(** The positions the viewport is fitted to: the store when it has entries,
    the supplied positions otherwise. *)
Definition fit_positions (ns : list FlowNode) (m : gmap string Position)
    : list Position :=
  if bool_decide (0 < Map_size m)%nat then Map_values m
  else node_position <$> ns.

Definition viewBoxEffect (p : Props) (st : State) : State :=
  if negb (fitView p) || no_nodes (nodes p) then st
  else
    let positions := fit_positions (default [] (nodes p)) (nodePositions st) in
    let xs := pos_x <$> positions in
    let ys := pos_y <$> positions in
    match Math_min xs, Math_min ys, Math_max xs, Math_max ys with
    | Some mnx, Some mny, Some mxx, Some mxy =>
        let minX := mnx - num 50 in
        let minY := mny - num 50 in
        let maxX := mxx + num 200 in
        let maxY := mxy + num 100 in
        let width := max2 (maxX - minX) (num 400) in
        let height := max2 (maxY - minY) (num 300) in
        setViewBox [Num minX; Lit " "; Num minY; Lit " ";
                    Num width; Lit " "; Num height] st
    | _, _, _, _ => st (* no position at all: excluded by the guard above *)
    end.

(** The state once both effects have run for the props [p]: the store is
    initialised first, the viewport is fitted to the store that results. *)
Definition receiveProps (p : Props) (st : State) : State :=
  viewBoxEffect p (initPositionsEffect p st).

(** The four numbers of a [viewBox] attribute. *)
Record Rect : Type := mkRect {
  rect_x : number; rect_y : number; rect_w : number; rect_h : number
}.

Definition viewBox_rect (v : template) : option Rect :=
  match v with
  | [Num a; Lit " "; Num b; Lit " "; Num c; Lit " "; Num d] =>
      Some (mkRect a b c d)
  | _ => None
  end.

(** ** Current positions *)

Definition origin : Position := mkPosition (num 0) (num 0).

(** [nodePositions.get(nodeId) ?? { x: 0, y: 0 }] *)
Definition getCurrentPosition (m : gmap string Position) (nodeId : string)
    : Position :=
  default origin (m !! nodeId).

(** [{ ...node, position: getCurrentPosition(node.id) }] *)
Definition with_position (n : FlowNode) (pos : Position) : FlowNode :=
  mkFlowNode (node_id n) (node_label n) pos (node_type n) (node_style n).

Definition nodesWithCurrentPositions
    (ns : list FlowNode) (m : gmap string Position) : list FlowNode :=
  (λ node, with_position node (getCurrentPosition m (node_id node))) <$> ns.

(** ** Drag controller *)

Record MouseEvent : Type := mkMouseEvent { clientX : number; clientY : number }.

Definition handleMouseDown (p : Props) (nodeId : string) (e : MouseEvent)
    (st : State) : State :=
  if negb (interactive p) then st
  else
    let pos := getCurrentPosition (nodePositions st) nodeId in
    setDragging
      (Some (mkDrag nodeId (clientX e) (clientY e) (pos_x pos) (pos_y pos))) st.

Definition handleMouseMove (p : Props) (e : MouseEvent) (st : State) : State :=
  match dragging st with
  | None => st
  | Some d =>
      if negb (interactive p) then st
      else
        let dx := clientX e - startX d in
        let dy := clientY e - startY d in
        setNodePositions
          (λ prev, <[nodeId d :=
                       mkPosition (nodeStartX d + dx) (nodeStartY d + dy)]> prev)
          st
  end.

Definition handleMouseUp (st : State) : State := setDragging None st.

(** The handlers the rendered tree carries: [onMouseDown] of a node's
    [foreignObject], and [onMouseMove], [onMouseUp] and [onMouseLeave] of the
    drawing surface. *)
Inductive Handler : Type :=
  | NodeMouseDown (nodeId : string)
  | SurfaceMouseMove
  | SurfaceMouseUp.

Definition dispatch (p : Props) (h : Handler) (e : MouseEvent) (st : State)
    : State :=
  match h with
  | NodeMouseDown nodeId => handleMouseDown p nodeId e st
  | SurfaceMouseMove => handleMouseMove p e st
  | SurfaceMouseUp => handleMouseUp st
  end.

(** A sequence of pointer events, oldest first. *)
Definition dispatch_all (p : Props) (evs : list (Handler * MouseEvent))
    (st : State) : State :=
  foldl (λ s he, dispatch p he.1 he.2 s) st evs.

(** ** Edge path synthesis *)

(** The [d] attribute of the edge's path, by connector style. *)
Definition pathD (type : option string)
    (sourceX sourceY targetX targetY midY : number) : template :=
  if bool_decide (type = Some "straight") then
    [Lit "M "; Num sourceX; Lit " "; Num sourceY;
     Lit " L "; Num targetX; Lit " "; Num targetY]
  else if bool_decide (type = Some "step") then
    [Lit "M "; Num sourceX; Lit " "; Num sourceY;
     Lit " L "; Num sourceX; Lit " "; Num midY;
     Lit " L "; Num targetX; Lit " "; Num midY;
     Lit " L "; Num targetX; Lit " "; Num targetY]
  else
    [Lit "M "; Num sourceX; Lit " "; Num sourceY;
     Lit " C "; Num sourceX; Lit " "; Num midY;
     Lit ", "; Num targetX; Lit " "; Num midY;
     Lit ", "; Num targetX; Lit " "; Num targetY].

(** *** Reading path data

    The [d] attribute is SVG path data.  Its tokens are command letters and
    numbers, separated by blanks and commas; [M x y] moves to a point,
    [L x y] draws a line segment, [C x1 y1 x2 y2 x y] draws a cubic curve
    with two control points. *)

Inductive token : Type :=
  | TCmd (c : Ascii.ascii)
  | TNum (n : number).

Fixpoint tokens_of_string (s : string) : list token :=
  match s with
  | EmptyString => []
  | String c s' =>
      if Ascii.eqb c " "%char || Ascii.eqb c ","%char then tokens_of_string s'
      else TCmd c :: tokens_of_string s'
  end.

Definition tokenize (t : template) : list token :=
  t ≫= λ pc, match pc with
             | Lit s => tokens_of_string s
             | Num n => [TNum n]
             end.

Inductive segment : Type :=
  | MoveTo (x y : number)
  | LineTo (x y : number)
  | CurveTo (x1 y1 x2 y2 x y : number).

Fixpoint parse_path (ts : list token) : option (list segment) :=
  match ts with
  | [] => Some []
  | TCmd c :: TNum a :: TNum b :: r =>
      if Ascii.eqb c "M"%char then cons (MoveTo a b) <$> parse_path r
      else if Ascii.eqb c "L"%char then cons (LineTo a b) <$> parse_path r
      else if Ascii.eqb c "C"%char then
        match r with
        | TNum a2 :: TNum b2 :: TNum a3 :: TNum b3 :: r' =>
            cons (CurveTo a b a2 b2 a3 b3) <$> parse_path r'
        | _ => None
        end
      else None
  | _ => None
  end.

Definition path_segments (t : template) : option (list segment) :=
  parse_path (tokenize t).

(** ** Virtual DOM *)

Inductive Val : Type :=
  | VStr (s : string)
  | VNum (n : number)
  | VTpl (t : template).

Inductive PropVal : Type :=
  | PVal (v : Val)
  | PStyle (decls : list (string * Val))
  | PHandler (h : Handler).

(** A React element: a host element (tag, key, props, children), a text
    child, or one of the two components of the file, not yet rendered. *)
#[warnings="-register-all"]
Inductive Element : Type :=
  | Host (tag : string) (key : option string)
         (props : list (string * PropVal)) (children : list Element)
  | Text (s : string)
  | CustomNodeElement (node : FlowNode)
  | FlowErrorBoundaryElement (cls : option string) (v : option FlowVariant)
         (sz : option FlowSize) (child : Element).

(** A prop whose value may be [undefined] is left out. *)
Definition opt_prop {A} (name : string) (v : option A) : list (string * A) :=
  match v with
  | Some a => [(name, a)]
  | None => []
  end.

Definition str_prop (name s : string) : string * PropVal := (name, PVal (VStr s)).
Definition num_prop (name : string) (n : number) : string * PropVal :=
  (name, PVal (VNum n)).

(** [s && jsx] for a string [s]: nothing is rendered for [undefined] or for
    the empty string. *)
Definition truthy (s : option string) : option string :=
  match s with
  | Some "" => None
  | o => o
  end.

(** ** renderEdge *)

Definition renderEdge (edge : FlowEdge) (ns : list FlowNode) : option Element :=
  let sourceNode := List.find (λ n, bool_decide (node_id n = edge_source edge)) ns in
  let targetNode := List.find (λ n, bool_decide (node_id n = edge_target edge)) ns in
  match sourceNode, targetNode with
  | Some sourceNode, Some targetNode =>
      let sourceX := pos_x (node_position sourceNode) + num 60 in
      let sourceY := pos_y (node_position sourceNode) + num 25 in
      let targetX := pos_x (node_position targetNode) + num 60 in
      let targetY := pos_y (node_position targetNode) + num 25 in
      let midX := (sourceX + targetX) / num 2 in
      let midY := (sourceY + targetY) / num 2 in
      let strokeColor := default "#94a3b8" (edge_style edge ≫= es_stroke) in
      let strokeWidth := default (num 2) (edge_style edge ≫= es_strokeWidth) in
      let animated := default false (edge_animated edge) in
      Some (Host "g" (Some (edge_id edge)) []
        ([ Host "defs" None []
             [ Host "marker" None
                 [ str_prop "id" ("arrowhead-" +:+ edge_id edge);
                   str_prop "markerWidth" "10";
                   str_prop "markerHeight" "7";
                   str_prop "refX" "9";
                   str_prop "refY" "3.5";
                   str_prop "orient" "auto" ]
                 [ Host "polygon" None
                     [ str_prop "points" "0 0, 10 3.5, 0 7";
                       str_prop "fill" strokeColor ] [] ] ];
           Host "path" None
             ([ ("d", PVal (VTpl (pathD (edge_type edge)
                                   sourceX sourceY targetX targetY midY)));
                str_prop "stroke" strokeColor;
                num_prop "strokeWidth" strokeWidth;
                str_prop "fill" "none";
                str_prop "markerEnd" ("url(#arrowhead-" +:+ edge_id edge +:+ ")") ]
              ++ opt_prop "strokeDasharray"
                   (if animated then Some (PVal (VStr "5,5")) else None)
              ++ opt_prop "className"
                   (if animated then Some (PVal (VStr "animate-dash")) else None))
             [] ]
         ++ match truthy (edge_label edge) with
            | Some l =>
                [ Host "text" None
                    [ num_prop "x" midX;
                      num_prop "y" (midY - num 10);
                      str_prop "textAnchor" "middle";
                      str_prop "fill" "#64748b";
                      num_prop "fontSize" (num 12) ]
                    [ Text l ] ]
            | None => []
            end))
  | _, _ => None
  end.

(** ** CustomNode *)

Inductive Error : Type := TypeError (msg : string).

Record TypeColors : Type := mkColors { bg : string; border : string }.

Definition nodeTypeColors : list (string * TypeColors) :=
  [ ("input", mkColors "#dcfce7" "#22c55e");
    ("output", mkColors "#fce7f3" "#ec4899");
    ("default", mkColors "#f1f5f9" "#94a3b8");
    ("custom", mkColors "#e0f2fe" "#0ea5e9") ].

(** Names every plain object inherits from [Object.prototype]. *)
Definition Object_prototype_keys : list string :=
  [ "constructor"; "hasOwnProperty"; "isPrototypeOf"; "propertyIsEnumerable";
    "toLocaleString"; "toString"; "valueOf"; "__proto__";
    "__defineGetter__"; "__defineSetter__";
    "__lookupGetter__"; "__lookupSetter__" ].

(** The value of [record[key]] for an object literal [record]: one of its own
    entries, an inherited member (which has neither [bg] nor [border]), or
    [undefined]. *)
Inductive Lookup (A : Type) : Type :=
  | Own (a : A)
  | Inherited
  | Undefined.
Arguments Own {A} a.
Arguments Inherited {A}.
Arguments Undefined {A}.

Definition record_get {A} (record : list (string * A)) (key : string) : Lookup A :=
  match List.find (λ kv, bool_decide (kv.1 = key)) record with
  | Some kv => Own kv.2
  | None => if bool_decide (key ∈ Object_prototype_keys) then Inherited
            else Undefined
  end.

(** [typeColors.bg]: reading a member of [undefined] throws. *)
Definition member {A B} (f : A → B) (o : Lookup A) : Error + option B :=
  match o with
  | Own a => inr (Some (f a))
  | Inherited => inr None
  | Undefined => inl (TypeError "Cannot read properties of undefined")
  end.

(** [a ?? b], where [b] is evaluated only when [a] is nullish. *)
Definition nullish_or {A} (a : option A) (b : Error + option A)
    : Error + option A :=
  match a with
  | Some v => inr (Some v)
  | None => b
  end.

Definition CustomNode (node : FlowNode) : Error + Element :=
  let typeColors := record_get nodeTypeColors (default "default" (node_type node)) in
  let style := node_style node in
  match nullish_or (style ≫= ns_backgroundColor) (member bg typeColors) with
  | inl err => inl err
  | inr backgroundColor =>
      match nullish_or (style ≫= ns_borderColor) (member border typeColors) with
      | inl err => inl err
      | inr borderColor =>
          inr (Host "div" None
                 [ ("style", PStyle
                      ([ ("padding", VNum (default (num 12) (style ≫= ns_padding)));
                         ("borderRadius",
                            VNum (default (num 8) (style ≫= ns_borderRadius))) ]
                       ++ opt_prop "backgroundColor" (VStr <$> backgroundColor)
                       ++ [ ("border",
                               VTpl [ Num (default (num 2) (style ≫= ns_borderWidth));
                                      Lit "px solid ";
                                      Lit (default "undefined" borderColor) ]);
                            ("color", VStr (default "#1e293b" (style ≫= ns_color))) ]
                       ++ opt_prop "width" (VNum <$> (style ≫= ns_width))
                       ++ opt_prop "height" (VNum <$> (style ≫= ns_height))
                       ++ [ ("minWidth", VNum (num 120));
                            ("textAlign", VStr "center");
                            ("fontSize", VNum (num 14));
                            ("fontWeight", VNum (num 500)) ]));
                   str_prop "className" "shadow-sm" ]
                 [ Text (node_label node) ])
      end
  end.

(** ** Container classes *)

(** [flowVariants({ variant, size })]: the base classes, then the classes of
    the variant and of the size, each falling back to its default. *)
Definition flowVariants (v : option FlowVariant) (sz : option FlowSize) : string :=
  "w-full rounded-lg overflow-hidden transition-all duration-200"
  +:+ " " +:+
  match default VariantDefault v with
  | VariantDefault => "bg-background"
  | VariantSolid => "shadow-lg shadow-zinc-900/10 dark:shadow-zinc-900/20 bg-muted"
  | VariantBordered => "border-2 border-border"
  end
  +:+ " " +:+
  match default SizeDefault sz with
  | SizeDefault => "h-96"
  | SizeSm => "h-64"
  | SizeLg => "h-[32rem]"
  | SizeFull => "h-[calc(100vh-8rem)]"
  end.

Section Render.

(** [cn] of [@/lib/utils] merges class lists; the component only hands it
    the variant classes and the caller's [className]. *)
Variable cn : string → option string → string.

(** ** FlowErrorBoundary *)

Record BoundaryState : Type := mkBoundaryState {
  hasError : bool;
  error : option Error
}.

(** The constructor's [this.state]. *)
Definition boundary_initial : BoundaryState := mkBoundaryState false None.

Definition getDerivedStateFromError (err : Error) : BoundaryState :=
  mkBoundaryState true (Some err).

Definition error_panel (cls : option string) (v : option FlowVariant)
    (sz : option FlowSize) : Element :=
  Host "div" None [ str_prop "className" (cn (flowVariants v sz) cls) ]
    [ Host "div" None
        [ str_prop "className" "p-4 flex items-center justify-center h-full" ]
        [ Host "div" None [ str_prop "className" "text-destructive text-center" ]
            [ Host "p" None [ str_prop "className" "font-medium" ]
                [ Text "Error loading flow diagram" ];
              Host "p" None [ str_prop "className" "text-sm mt-1" ]
                [ Text "An error occurred while rendering. Please try again." ] ] ] ].

(** [render()] of the boundary. *)
Definition FlowErrorBoundary_render (st : BoundaryState)
    (cls : option string) (v : option FlowVariant) (sz : option FlowSize)
    (children : Element) : Element :=
  if hasError st then error_panel cls v sz else children.

(** ** TamboReactFlow *)

Definition container_className (p : Props) : string :=
  cn (flowVariants (variant p) (size p)) (className p).

Definition bounce_dot (delay : string) : Element :=
  Host "span" None
    [ str_prop "className"
        ("w-2 h-2 bg-current rounded-full animate-bounce [animation-delay:"
         +:+ delay +:+ "]") ] [].

(** The placeholder shown while no node has been received. *)
Definition loading_placeholder (p : Props) : Element :=
  Host "div" None [ str_prop "className" (container_className p) ]
    [ Host "div" None
        [ str_prop "className" "p-4 h-full flex items-center justify-center" ]
        [ Host "div" None
            [ str_prop "className"
                "flex flex-col items-center gap-2 text-muted-foreground" ]
            [ Host "div" None [ str_prop "className" "flex items-center gap-1 h-4" ]
                [ bounce_dot "-0.3s"; bounce_dot "-0.2s"; bounce_dot "-0.1s" ];
              Host "span" None [ str_prop "className" "text-sm" ]
                [ Text "Building flow diagram..." ] ] ] ].

(** The text of the [style] element, with its line breaks folded. *)
Definition dash_keyframes : string :=
  "@keyframes dash { to { stroke-dashoffset: -20; } } .animate-dash { animation: dash 0.5s linear infinite; }".

(** One [foreignObject] per node, at the node's current position. *)
Definition render_node (p : Props) (st : State) (node : FlowNode) : Element :=
  let pos := getCurrentPosition (nodePositions st) (node_id node) in
  Host "foreignObject" (Some (node_id node))
    ([ num_prop "x" (pos_x pos);
       num_prop "y" (pos_y pos);
       num_prop "width" (default (num 120) (node_style node ≫= ns_width));
       num_prop "height" (default (num 50) (node_style node ≫= ns_height));
       ("style", PStyle [ ("overflow", VStr "visible") ]);
       ("onMouseDown", PHandler (NodeMouseDown (node_id node))) ]
     ++ opt_prop "className"
          (if interactive p then Some (PVal (VStr "cursor-move")) else None))
    [ CustomNodeElement node ].

(** The edges that are drawn: [renderEdge] on every edge, a [null] result
    renders nothing. *)
Definition render_edges (es : option (list FlowEdge)) (ns : list FlowNode)
    : list Element :=
  omap (λ edge, renderEdge edge ns) (default [] es).

(** The container the boundary wraps. *)
Definition flow_container (p : Props) (st : State) : Element :=
  let nwcp := nodesWithCurrentPositions (default [] (nodes p)) (nodePositions st) in
  Host "div" None [ str_prop "className" (container_className p) ]
    [ Host "div" None [ str_prop "className" "p-4 h-full flex flex-col" ]
        (match truthy (title p) with
         | Some t =>
             [ Host "h3" None
                 [ str_prop "className" "text-lg font-medium mb-4 text-foreground" ]
                 [ Text t ] ]
         | None => []
         end
         ++ [ Host "div" None
                [ str_prop "className" "flex-1 relative";
                  ("onMouseMove", PHandler SurfaceMouseMove);
                  ("onMouseUp", PHandler SurfaceMouseUp);
                  ("onMouseLeave", PHandler SurfaceMouseUp) ]
                [ Host "svg" None
                    [ str_prop "className" "w-full h-full";
                      ("viewBox", PVal (VTpl (viewBox st)));
                      str_prop "preserveAspectRatio" "xMidYMid meet" ]
                    ([ Host "style" None [] [ Text dash_keyframes ] ]
                     ++ render_edges (edges p) nwcp
                     ++ (render_node p st <$> nwcp)) ] ]) ].

(** What the component function returns for props [p] in state [st]. *)
Definition TamboReactFlow (p : Props) (st : State) : Element :=
  if no_nodes (nodes p) then loading_placeholder p
  else FlowErrorBoundaryElement (className p) (variant p) (size p)
         (flow_container p st).

(** ** Rendering the element tree

    React renders the components of a tree from the top.  An exception that
    a component throws while it renders is handed to the nearest boundary
    above it: the boundary's state becomes [getDerivedStateFromError] of the
    exception and the boundary renders again.  With no boundary above, the
    exception leaves the tree. *)
Fixpoint mount (e : Element) : Error + Element :=
  match e with
  | Host tag key props children =>
      match
        (fix mount_all (l : list Element) : Error + list Element :=
           match l with
           | [] => inr []
           | c :: l' =>
               match mount c with
               | inl err => inl err
               | inr c' =>
                   match mount_all l' with
                   | inl err => inl err
                   | inr l'' => inr (c' :: l'')
                   end
               end
           end) children
      with
      | inl err => inl err
      | inr children' => inr (Host tag key props children')
      end
  | Text s => inr (Text s)
  | CustomNodeElement node => CustomNode node
  | FlowErrorBoundaryElement cls v sz child =>
      match mount child with
      | inr child' =>
          inr (FlowErrorBoundary_render boundary_initial cls v sz child')
      | inl err =>
          inr (FlowErrorBoundary_render (getDerivedStateFromError err)
                 cls v sz child)
      end
  end.

End Render.

(** ** Reading a rendered tree *)

Definition prop_get (name : string) (props : list (string * PropVal))
    : option PropVal :=
  snd <$> List.find (λ kv, bool_decide (kv.1 = name)) props.

(** The [className] of the outermost element. *)
Definition root_className (e : Element) : option PropVal :=
  match e with
  | Host _ _ props _ => prop_get "className" props
  | _ => None
  end.

Definition has_tag (tag : string) (e : Element) : bool :=
  match e with
  | Host t _ _ _ => bool_decide (t = tag)
  | _ => false
  end.

(** The [d] attribute of the [path] child of a rendered edge. *)
Definition edge_path_d (e : Element) : option template :=
  match e with
  | Host _ _ _ children =>
      match List.find (has_tag "path") children with
      | Some (Host _ _ props _) =>
          match prop_get "d" props with
          | Some (PVal (VTpl t)) => Some t
          | _ => None
          end
      | _ => None
      end
  | _ => None
  end.


(** * Specification predicates *)

(** The store holds exactly one entry per node of [ns], with the node's
    supplied coordinates, and nothing else. *)
Definition reset_to_supplied (ns : list FlowNode) (store : gmap string Position)
    : Prop :=
  (∀ n, n ∈ ns → store !! node_id n = Some (node_position n))
  ∧ (∀ k pos, store !! k = Some pos → ∃ n, n ∈ ns ∧ node_id n = k)
  ∧ Map_size store = length ns.

(** [m] is the least (greatest) number of [xs]. *)
Definition is_min (m : number) (xs : list number) : Prop :=
  m ∈ xs ∧ ∀ x, x ∈ xs → m ≤ x.
Definition is_max (m : number) (xs : list number) : Prop :=
  m ∈ xs ∧ ∀ x, x ∈ xs → x ≤ m.

(** * Sample inputs *)

Definition plain_node (id : string) (x y : Z) : FlowNode :=
  mkFlowNode id id (mkPosition (num x) (num y)) None None.

Definition typed_node (id type : string) (x y : Z) : FlowNode :=
  mkFlowNode id id (mkPosition (num x) (num y)) (Some type) None.

Definition plain_edge (id source target : string) (type : option string)
    : FlowEdge :=
  mkFlowEdge id source target None type None None.

Definition props_of (ns : option (list FlowNode)) (es : list FlowEdge)
    (fit inter : bool) : Props :=
  mkProps None None None ns (Some es) None fit inter.

(** A store in which node [a] has been dragged to (7, 9). *)
Definition dragged_state : State :=
  mkState [Lit "0 0 800 600"] None {[ "a" := mkPosition (num 7) (num 9) ]}.

Definition two_nodes : list FlowNode :=
  [ plain_node "a" 0 0; plain_node "b" 100 40 ].

(** Two nodes that share the id [a]. *)
Definition twin_nodes : list FlowNode :=
  [ plain_node "a" 0 0; plain_node "a" 30 50 ].

(** A stand-in for [cn] that joins the two class lists with a blank. *)
Definition cn_join (classes : string) (extra : option string) : string :=
  match extra with
  | Some c => classes +:+ " " +:+ c
  | None => classes
  end.

Definition origin_node : list FlowNode := [ plain_node "a" 0 0 ].

(** A drag of node [a], started with the pointer at (10, 20) while the node
    was at (7, 9). *)
Definition drag_of_a : DragSession :=
  mkDrag "a" (num 10) (num 20) (num 7) (num 9).

Definition mid_drag_state : State :=
  mkState [Lit "0 0 800 600"] (Some drag_of_a)
    (<[ "b" := mkPosition (num 100) (num 40) ]>
       {[ "a" := mkPosition (num 7) (num 9) ]}).

(** Pointer-down on [a], two moves, release: as events on the rendered tree. *)
Definition pointer_sequence : list (Handler * MouseEvent) :=
  [ (NodeMouseDown "a", mkMouseEvent (num 10) (num 20));
    (SurfaceMouseMove, mkMouseEvent (num 15) (num 18));
    (SurfaceMouseMove, mkMouseEvent (num 40) (num 60));
    (SurfaceMouseUp, mkMouseEvent (num 40) (num 60)) ].

(** A node whose type is not one of the schema's. *)
Definition odd_node : list FlowNode := [ typed_node "a" "decision" 0 0 ].

Definition step_edge : FlowEdge := plain_edge "e1" "a" "b" (Some "step").
Definition dangling_edge : FlowEdge := plain_edge "e-bad" "a" "99" None.

(** * Further specification predicates and sample inputs *)


Definition three_nodes : list FlowNode :=
  [ typed_node "1" "input" 250 0; plain_node "2" 250 100;
    typed_node "3" "output" 250 200 ].


(** The node of the drag session, if there is one, has an entry in the store. *)
Definition session_in_store (st : State) : Prop :=
  ∀ d, dragging st = Some d → nodeId d ∈ dom (nodePositions st).

(** A session left over from a node [gone] that is no longer supplied. *)
Definition stale_drag_state : State :=
  mkState [Lit "0 0 800 600"]
    (Some (mkDrag "gone" (num 10) (num 20) (num 7) (num 9)))
    {[ "gone" := mkPosition (num 7) (num 9) ]}.

(** Rendering a list of children, as [mount] does for a host element: the
    first exception ends it. *)
Definition mount_all (cn : string → option string → string)
    : list Element → Error + list Element :=
  fix mount_all (l : list Element) : Error + list Element :=
    match l with
    | [] => inr []
    | c :: l' =>
        match mount cn c with
        | inl err => inl err
        | inr c' =>
            match mount_all l' with
            | inl err => inl err
            | inr l'' => inr (c' :: l'')
            end
        end
    end.

(** The node throws when it is rendered. *)
Definition node_throws (node : FlowNode) : Prop :=
  ∃ err, CustomNode node = inl err.

(** A node of an unknown type whose style supplies both colours. *)
Definition styled_odd_node : FlowNode :=
  mkFlowNode "s" "s" (mkPosition (num 0) (num 0)) (Some "decision")
    (Some (mkNodeStyle (Some "#fff") (Some "#000") None None None None None None)).

(** Where a path segment ends. *)
Definition segment_end (s : segment) : number * number :=
  match s with
  | MoveTo x y => (x, y)
  | LineTo x y => (x, y)
  | CurveTo _ _ _ _ x y => (x, y)
  end.

(** The path goes from [(sx, sy)] to [(tx, ty)]. *)
Definition runs_between (segs : list segment) (sx sy tx ty : number) : Prop :=
  head segs = Some (MoveTo sx sy) ∧ segment_end <$> last segs = Some (tx, ty).

(** ** More readers of a rendered tree *)

Definition child_with_tag (tag : string) (e : Element) : option Element :=
  match e with
  | Host _ _ _ children => List.find (has_tag tag) children
  | _ => None
  end.

Definition el_prop (name : string) (e : Element) : option PropVal :=
  match e with
  | Host _ _ props _ => prop_get name props
  | _ => None
  end.

Definition el_key (e : Element) : option string :=
  match e with
  | Host _ key _ _ => key
  | _ => None
  end.

Definition el_children (e : Element) : list Element :=
  match e with
  | Host _ _ _ children => children
  | _ => []
  end.

(** The parts of a rendered edge: a prop of its [path], its [marker], and the
    [polygon] that draws the arrow. *)
Definition path_prop (name : string) (e : Element) : option PropVal :=
  child_with_tag "path" e ≫= el_prop name.

Definition edge_marker (e : Element) : option Element :=
  child_with_tag "defs" e ≫= child_with_tag "marker".

Definition edge_arrow (e : Element) : option Element :=
  edge_marker e ≫= child_with_tag "polygon".

(** The elements with the given tag in a tree, in document order. *)
Fixpoint find_all (tag : string) (e : Element) : list Element :=
  match e with
  | Host t _ _ children =>
      (if bool_decide (t = tag) then [e] else [])
      ++ flat_map (find_all tag) children
  | FlowErrorBoundaryElement _ _ _ child => find_all tag child
  | _ => []
  end.

(** The edge resolves: both its ends are ids of nodes of [ns]. *)
Definition resolves (ns : list FlowNode) (edge : FlowEdge) : Prop :=
  edge_source edge ∈ node_id <$> ns ∧ edge_target edge ∈ node_id <$> ns.

#[global] Instance resolves_dec ns edge : Decision (resolves ns edge).
Proof. unfold resolves. apply _. Defined.

Definition labelled_edge : FlowEdge :=
  mkFlowEdge "e2-3" "a" "b" (Some "Verified") (Some "zigzag") (Some true)
    (Some (mkEdgeStyle (Some "#f00") None)).

(** ** Rendering again

    The boundary is a class component: its state lives as long as the
    boundary stays mounted, that is, as long as the component returns the
    boundary.  When the component returns the loading placeholder instead,
    the boundary is unmounted and its state is lost.  [render_step] renders
    the component for one (props, state) pair, given the state of the mounted
    boundary ([None] when there is none), and returns the boundary's state
    afterwards together with the output. *)
Definition render_step (cn : string → option string → string)
    (b : option BoundaryState) (p : Props) (st : State)
    : option BoundaryState * Element :=
  if no_nodes (nodes p) then (None, loading_placeholder cn p)
  else
    let bst := default boundary_initial b in
    if hasError bst then
      (Some bst,
       FlowErrorBoundary_render cn bst (className p) (variant p) (size p)
         (flow_container cn p st))
    else
      match mount cn (flow_container cn p st) with
      | inr child' =>
          (Some bst,
           FlowErrorBoundary_render cn bst (className p) (variant p) (size p)
             child')
      | inl err =>
          (Some (getDerivedStateFromError err),
           FlowErrorBoundary_render cn (getDerivedStateFromError err)
             (className p) (variant p) (size p) (flow_container cn p st))
      end.

(** The outputs of a run of renders, oldest first. *)
Fixpoint render_frames (cn : string → option string → string)
    (b : option BoundaryState) (frames : list (Props * State)) : list Element :=
  match frames with
  | [] => []
  | (p, st) :: frames' =>
      (render_step cn b p st).2
      :: render_frames cn (render_step cn b p st).1 frames'
  end.

Definition panel_of (cn : string → option string → string) (p : Props) : Element :=
  error_panel cn (className p) (variant p) (size p).
(** * Properties *)

(** ** The position store *)

Section PositionStore.

Implicit Types (ns : list FlowNode) (m : gmap string Position).

Lemma position_eta (pos : Position) : mkPosition (pos_x pos) (pos_y pos) = pos.
Proof. by destruct pos. Qed.

Lemma posMap_of_nil : posMap_of [] = ∅.
Proof. done. Qed.

(** Each node overwrites whatever the nodes before it stored under its id. *)
Lemma posMap_of_snoc ns n :
  posMap_of (ns ++ [n]) = <[node_id n := node_position n]> (posMap_of ns).
Proof.
  unfold posMap_of. rewrite foldl_app. simpl. by rewrite position_eta.
Qed.

Lemma posMap_of_dom ns :
  dom (posMap_of ns) = list_to_set (node_id <$> ns).
Proof.
  induction ns as [|n ns IH] using rev_ind.
  - rewrite posMap_of_nil. set_solver.
  - rewrite posMap_of_snoc, dom_insert_L, IH, fmap_app, list_to_set_app_L.
    simpl. rewrite union_empty_r_L. apply union_comm_L.
Qed.

(** The entry of an id is the position of the last node that carries it. *)
Lemma posMap_of_last ns1 n ns2 :
  (∀ n', n' ∈ ns2 → node_id n' ≠ node_id n) →
  posMap_of (ns1 ++ n :: ns2) !! node_id n = Some (node_position n).
Proof.
  induction ns2 as [|n2 ns2 IH] using rev_ind; intros Hlast.
  - rewrite posMap_of_snoc. apply lookup_insert_eq.
  - replace (ns1 ++ n :: ns2 ++ [n2]) with ((ns1 ++ n :: ns2) ++ [n2])
      by (by rewrite <- app_assoc).
    rewrite posMap_of_snoc, lookup_insert_ne.
    + apply IH. intros n' Hn'. apply Hlast. set_solver.
    + apply Hlast. set_solver.
Qed.

Lemma posMap_of_lookup_Some ns k pos :
  posMap_of ns !! k = Some pos →
  ∃ n, n ∈ ns ∧ node_id n = k ∧ node_position n = pos.
Proof.
  induction ns as [|n ns IH] using rev_ind.
  - rewrite posMap_of_nil, lookup_empty. done.
  - rewrite posMap_of_snoc, lookup_insert. case_decide as Hk.
    + intros [= <-]. exists n. set_solver.
    + intros (n' & ? & ? & ?)%IH. exists n'. set_solver.
Qed.

Lemma NoDup_ids_split ns1 n ns2 :
  NoDup (node_id <$> ns1 ++ n :: ns2) →
  ∀ n', n' ∈ ns2 → node_id n' ≠ node_id n.
Proof.
  rewrite fmap_app, fmap_cons. intros (_ & _ & Hnd)%NoDup_app.
  apply NoDup_cons in Hnd as [Hnotin _].
  intros n' Hn' Heq. apply Hnotin. rewrite <- Heq.
  apply list_elem_of_fmap. eauto.
Qed.

Lemma posMap_of_lookup_NoDup ns n :
  NoDup (node_id <$> ns) → n ∈ ns →
  posMap_of ns !! node_id n = Some (node_position n).
Proof.
  intros Hnd (ns1 & ns2 & ->)%list_elem_of_split.
  apply posMap_of_last. by eapply NoDup_ids_split.
Qed.

Lemma posMap_of_size ns :
  Map_size (posMap_of ns) = length (remove_dups (node_id <$> ns)).
Proof.
  unfold Map_size. rewrite <- size_dom, posMap_of_dom.
  rewrite <- (size_list_to_set (C:=gset string) (remove_dups _))
    by apply NoDup_remove_dups.
  f_equal. apply set_eq. intros k.
  by rewrite !elem_of_list_to_set, elem_of_remove_dups.
Qed.

Lemma posMap_of_size_NoDup ns :
  NoDup (node_id <$> ns) → Map_size (posMap_of ns) = length ns.
Proof.
  intros Hnd. unfold Map_size.
  by rewrite <- size_dom, posMap_of_dom, size_list_to_set, length_fmap.
Qed.

Lemma has_nodes_cons n ns : has_nodes (Some (n :: ns)) = true.
Proof. unfold has_nodes. apply bool_decide_eq_true. simpl. lia. Qed.

Lemma no_nodes_has_nodes o : no_nodes o = negb (has_nodes o).
Proof.
  destruct o as [[|n ns]|]; simpl; try done.
Qed.

Lemma initPositionsEffect_nonempty p st ns :
  nodes p = Some ns → ns ≠ [] →
  nodePositions (initPositionsEffect p st) = posMap_of ns.
Proof.
  intros Hp Hne. unfold initPositionsEffect. rewrite Hp.
  destruct ns as [|n ns]; [done|]. by rewrite has_nodes_cons.
Qed.

Lemma initPositionsEffect_empty p st :
  no_nodes (nodes p) = true → initPositionsEffect p st = st.
Proof.
  rewrite no_nodes_has_nodes. intros Hno%negb_true_iff.
  unfold initPositionsEffect. by rewrite Hno.
Qed.

End PositionStore.

(** C1, as amended.  For every non-empty node collection with unique ids, the
    initialisation effect resets the store to the supplied positions: it
    holds exactly one entry per supplied node, with that node's supplied
    coordinates, and no entry of the previous store survives unless a
    supplied node carries its id. *)
Theorem initPositionsEffect_resets (p : Props) (st : State) (ns : list FlowNode) :
  nodes p = Some ns → ns ≠ [] → NoDup (node_id <$> ns) →
  reset_to_supplied ns (nodePositions (initPositionsEffect p st))
  ∧ nodePositions (initPositionsEffect p st)
    = nodePositions (initPositionsEffect p initial_state).
Proof.
  intros Hp Hne Hnd.
  rewrite !(initPositionsEffect_nonempty p _ ns Hp Hne).
  split; [|done]. repeat split.
  - intros n Hn. by apply posMap_of_lookup_NoDup.
  - intros k pos (n & ? & ? & _)%posMap_of_lookup_Some. eauto.
  - by apply posMap_of_size_NoDup.
Qed.

Lemma initPositionsEffect_resets_witness :
  reset_to_supplied two_nodes
    (nodePositions (initPositionsEffect (props_of (Some two_nodes) [] true true)
                      dragged_state))
  ∧ nodePositions (initPositionsEffect (props_of (Some two_nodes) [] true true)
                     dragged_state)
    = nodePositions (initPositionsEffect (props_of (Some two_nodes) [] true true)
                       initial_state).
Proof.
  apply (initPositionsEffect_resets _ dragged_state two_nodes).
  - reflexivity.
  - discriminate.
  - apply (bool_decide_unpack _). vm_compute. exact I.
Defined.

(** C1, as stated, fails twice.  An empty collection does not reset the
    store: the dragged entry of [a] survives although no node is supplied.
    With a repeated id the store has one entry for the two nodes. *)
Lemma initPositionsEffect_resets_counterexample :
  ¬ reset_to_supplied []
      (nodePositions (initPositionsEffect (props_of (Some []) [] true true)
                        dragged_state))
  ∧ ¬ reset_to_supplied twin_nodes
      (nodePositions (initPositionsEffect (props_of (Some twin_nodes) [] true true)
                        initial_state)).
Proof.
  split.
  - intros (_ & Honly & _).
    destruct (Honly "a" (mkPosition (num 7) (num 9))) as (n & Hn & _).
    + reflexivity.
    + by apply elem_of_nil in Hn.
  - intros (_ & _ & Hsize). vm_compute in Hsize. discriminate.
Qed.

(** C8.  Looking up the current position of a node id never fails: an id
    without an entry in the store yields the origin (0, 0), an id with an
    entry yields the stored coordinates. *)
Theorem getCurrentPosition_total (m : gmap string Position) (nodeId : string) :
  (m !! nodeId = None →
     getCurrentPosition m nodeId = origin
     ∧ pos_x origin = 0 ∧ pos_y origin = 0)
  ∧ (∀ pos, m !! nodeId = Some pos → getCurrentPosition m nodeId = pos).
Proof.
  unfold getCurrentPosition. split.
  - intros ->. repeat split; by apply Qc_is_canon.
  - by intros pos ->.
Qed.

Lemma getCurrentPosition_total_witness :
  getCurrentPosition (nodePositions dragged_state) "stale" = origin
  ∧ getCurrentPosition (nodePositions dragged_state) "a"
    = mkPosition (num 7) (num 9).
Proof.
  split.
  - apply (proj1 (getCurrentPosition_total (nodePositions dragged_state) "stale")).
    reflexivity.
  - apply (proj2 (getCurrentPosition_total (nodePositions dragged_state) "a")).
    reflexivity.
Defined.

(** C10.  When several supplied nodes share an id, initialisation keeps one
    entry for that id, holding the coordinates of the last of them; every
    lookup of the id returns those coordinates, so every node with that id is
    rendered at that position. *)
Theorem initPositionsEffect_last_wins (p : Props) (st : State)
    (ns1 : list FlowNode) (n : FlowNode) (ns2 : list FlowNode) :
  nodes p = Some (ns1 ++ n :: ns2) →
  (∀ n', n' ∈ ns2 → node_id n' ≠ node_id n) →
  let store := nodePositions (initPositionsEffect p st) in
  store !! node_id n = Some (node_position n)
  ∧ getCurrentPosition store (node_id n) = node_position n
  ∧ (∀ n', n' ∈ nodesWithCurrentPositions (ns1 ++ n :: ns2) store →
           node_id n' = node_id n → node_position n' = node_position n)
  ∧ Map_size store = length (remove_dups (node_id <$> ns1 ++ n :: ns2)).
Proof.
  intros Hp Hlast store.
  assert (Hstore : store = posMap_of (ns1 ++ n :: ns2)).
  { apply initPositionsEffect_nonempty; [done|]. by destruct ns1. }
  assert (Hlookup : store !! node_id n = Some (node_position n)).
  { rewrite Hstore. by apply posMap_of_last. }
  repeat split.
  - done.
  - unfold getCurrentPosition. by rewrite Hlookup.
  - intros n' (n0 & -> & _)%list_elem_of_fmap. simpl. intros ->.
    unfold getCurrentPosition. by rewrite Hlookup.
  - rewrite Hstore. apply posMap_of_size.
Qed.

Lemma initPositionsEffect_last_wins_witness :
  let store :=
    nodePositions (initPositionsEffect (props_of (Some twin_nodes) [] true false)
                     initial_state) in
  store !! "a" = Some (mkPosition (num 30) (num 50))
  ∧ getCurrentPosition store "a" = mkPosition (num 30) (num 50)
  ∧ (∀ n', n' ∈ nodesWithCurrentPositions twin_nodes store →
           node_id n' = "a" → node_position n' = mkPosition (num 30) (num 50))
  ∧ Map_size store = length (remove_dups (node_id <$> twin_nodes)).
Proof.
  apply (initPositionsEffect_last_wins
           (props_of (Some twin_nodes) [] true false) initial_state
           [plain_node "a" 0 0] (plain_node "a" 30 50) []).
  - reflexivity.
  - intros n' Hn'. by apply elem_of_nil in Hn'.
Defined.

(** ** Viewport fitting *)

Section Viewport.

Implicit Types (a b x : number) (xs : list number).

Lemma min2_le_l a b : min2 a b ≤ a.
Proof.
  unfold min2. case_decide as Hab; [apply Qcle_refl|].
  apply Qclt_le_weak. by apply Qclt_nge.
Qed.

Lemma min2_le_r a b : min2 a b ≤ b.
Proof. unfold min2. case_decide; [done|apply Qcle_refl]. Qed.

Lemma max2_ge_l a b : a ≤ max2 a b.
Proof. unfold max2. case_decide; [done|apply Qcle_refl]. Qed.

Lemma max2_ge_r a b : b ≤ max2 a b.
Proof.
  unfold max2. case_decide as Hab; [apply Qcle_refl|].
  apply Qclt_le_weak. by apply Qclt_nge.
Qed.

Lemma min2_cases a b : min2 a b = a ∨ min2 a b = b.
Proof. unfold min2. case_decide; auto. Qed.

Lemma max2_cases a b : max2 a b = a ∨ max2 a b = b.
Proof. unfold max2. case_decide; auto. Qed.

Lemma foldl_min2_is_min a xs : is_min (foldl min2 a xs) (a :: xs).
Proof.
  revert a. induction xs as [|x xs IH]; intros a; simpl.
  - split; [set_solver|]. intros y ->%list_elem_of_singleton. apply Qcle_refl.
  - destruct (IH (min2 a x)) as [Hin Hle]. split.
    + apply elem_of_cons in Hin as [->|Hin]; [|set_solver].
      destruct (min2_cases a x) as [->| ->]; set_solver.
    + intros y Hy.
      assert (Hfold : foldl min2 (min2 a x) xs ≤ min2 a x) by (apply Hle; set_solver).
      apply elem_of_cons in Hy as [->|Hy].
      { eapply Qcle_trans; [exact Hfold|apply min2_le_l]. }
      apply elem_of_cons in Hy as [->|Hy].
      { eapply Qcle_trans; [exact Hfold|apply min2_le_r]. }
      apply Hle. set_solver.
Qed.

Lemma foldl_max2_is_max a xs : is_max (foldl max2 a xs) (a :: xs).
Proof.
  revert a. induction xs as [|x xs IH]; intros a; simpl.
  - split; [set_solver|]. intros y ->%list_elem_of_singleton. apply Qcle_refl.
  - destruct (IH (max2 a x)) as [Hin Hle]. split.
    + apply elem_of_cons in Hin as [->|Hin]; [|set_solver].
      destruct (max2_cases a x) as [->| ->]; set_solver.
    + intros y Hy.
      assert (Hfold : max2 a x ≤ foldl max2 (max2 a x) xs) by (apply Hle; set_solver).
      apply elem_of_cons in Hy as [->|Hy].
      { eapply Qcle_trans; [apply max2_ge_l|exact Hfold]. }
      apply elem_of_cons in Hy as [->|Hy].
      { eapply Qcle_trans; [apply max2_ge_r|exact Hfold]. }
      apply Hle. set_solver.
Qed.

Lemma Math_min_Some xs : xs ≠ [] → ∃ m, Math_min xs = Some m ∧ is_min m xs.
Proof.
  destruct xs as [|x xs]; [done|]. intros _.
  eexists. split; [done|]. apply foldl_min2_is_min.
Qed.

Lemma Math_max_Some xs : xs ≠ [] → ∃ m, Math_max xs = Some m ∧ is_max m xs.
Proof.
  destruct xs as [|x xs]; [done|]. intros _.
  eexists. split; [done|]. apply foldl_max2_is_max.
Qed.

Lemma is_min_unique m m' xs ys :
  xs ≡ₚ ys → is_min m xs → is_min m' ys → m = m'.
Proof.
  intros Hp [Hin Hle] [Hin' Hle']. apply Qcle_antisym.
  - apply Hle. by rewrite Hp.
  - apply Hle'. by rewrite <- Hp.
Qed.

Lemma is_max_unique m m' xs ys :
  xs ≡ₚ ys → is_max m xs → is_max m' ys → m = m'.
Proof.
  intros Hp [Hin Hle] [Hin' Hle']. apply Qcle_antisym.
  - apply Hle'. by rewrite <- Hp.
  - apply Hle. by rewrite Hp.
Qed.

(** [Math.min] and [Math.max] do not depend on the order of their arguments,
    hence not on the order in which the store lists its values. *)
Lemma Math_min_Permutation xs ys : xs ≡ₚ ys → Math_min xs = Math_min ys.
Proof.
  intros Hp. destruct xs as [|x xs], ys as [|y ys].
  - done.
  - by apply Permutation_nil_cons in Hp.
  - symmetry in Hp. by apply Permutation_nil_cons in Hp.
  - simpl. f_equal.
    eapply is_min_unique; [exact Hp|apply foldl_min2_is_min..].
Qed.

Lemma Math_max_Permutation xs ys : xs ≡ₚ ys → Math_max xs = Math_max ys.
Proof.
  intros Hp. destruct xs as [|x xs], ys as [|y ys].
  - done.
  - by apply Permutation_nil_cons in Hp.
  - symmetry in Hp. by apply Permutation_nil_cons in Hp.
  - simpl. f_equal.
    eapply is_max_unique; [exact Hp|apply foldl_max2_is_max..].
Qed.

(** The positions the viewport is fitted to are those of the store, or the
    supplied ones while the store is empty. *)
Lemma elem_of_fit_positions (ns : list FlowNode) (m : gmap string Position) pos :
  pos ∈ fit_positions ns m ↔
  if bool_decide (0 < Map_size m)%nat then ∃ k, m !! k = Some pos
  else ∃ n, n ∈ ns ∧ node_position n = pos.
Proof.
  unfold fit_positions, Map_values. case_bool_decide.
  - rewrite list_elem_of_fmap. split.
    + intros ([k pos'] & -> & Hin%elem_of_map_to_list). eauto.
    + intros (k & Hk). exists (k, pos). by rewrite elem_of_map_to_list.
  - rewrite list_elem_of_fmap. naive_solver.
Qed.

Lemma fit_positions_nonempty (ns : list FlowNode) (m : gmap string Position) :
  ns ≠ [] → fit_positions ns m ≠ [].
Proof.
  intros Hne. unfold fit_positions, Map_values, Map_size. case_bool_decide as Hsz.
  - intros Hnil%(f_equal length).
    rewrite length_fmap, length_map_to_list in Hnil. simpl in Hnil. lia.
  - by destruct ns.
Qed.

End Viewport.



(** A single node at the origin is framed by (-50, -50, 400, 300). *)
Example viewBox_single_node_at_origin :
  ∃ r, viewBox_rect
         (viewBox (receiveProps (props_of (Some origin_node) [] true false)
                     initial_state)) = Some r
       ∧ rect_x r = num (-50) ∧ rect_y r = num (-50)
       ∧ rect_w r = num 400 ∧ rect_h r = num 300.
Proof.
  eexists. split; [reflexivity|].
  repeat split; apply Qc_is_canon; reflexivity.
Qed.

(** ** Drag controller *)

Section Drag.


Lemma handleMouseUp_ends_session st :
  dragging (handleMouseUp st) = None
  ∧ nodePositions (handleMouseUp st) = nodePositions st.
Proof. done. Qed.

Lemma handleMouseMove_idle p e st : dragging st = None → handleMouseMove p e st = st.
Proof. intros Hd. unfold handleMouseMove. by rewrite Hd. Qed.

Lemma handleMouseDown_read_only p nodeId e st :
  interactive p = false → handleMouseDown p nodeId e st = st.
Proof. intros Hi. unfold handleMouseDown. by rewrite Hi. Qed.

Lemma handleMouseMove_read_only p e st :
  interactive p = false → handleMouseMove p e st = st.
Proof.
  intros Hi. unfold handleMouseMove. rewrite Hi. by destruct (dragging st).
Qed.

Lemma dispatch_read_only_store p h e st :
  interactive p = false →
  nodePositions (dispatch p h e st) = nodePositions st.
Proof.
  intros Hi. destruct h; simpl.
  - by rewrite handleMouseDown_read_only.
  - by rewrite handleMouseMove_read_only.
  - done.
Qed.

Lemma dispatch_read_only_idle p h e st :
  interactive p = false → dragging st = None →
  dragging (dispatch p h e st) = None.
Proof.
  intros Hi Hd. destruct h; simpl.
  - by rewrite handleMouseDown_read_only.
  - by rewrite handleMouseMove_read_only.
  - done.
Qed.

End Drag.

(** C4.  With [interactive] on and a drag session of node N that started with
    the pointer at (sx, sy) and the node at (nx, ny), a pointer-move to
    (sx + dx, sy + dy) stores exactly (nx + dx, ny + dy) for N; the stored
    position of every other node is unchanged, and the session stays as it
    was, so the same holds for every further move. *)
Theorem handleMouseMove_moves_dragged_node_only
    (p : Props) (st : State) (d : DragSession) (e : MouseEvent) (dx dy : number) :
  interactive p = true → dragging st = Some d →
  clientX e = startX d + dx → clientY e = startY d + dy →
  let st' := handleMouseMove p e st in
  nodePositions st' !! nodeId d
  = Some (mkPosition (nodeStartX d + dx) (nodeStartY d + dy))
  ∧ (∀ k, k ≠ nodeId d → nodePositions st' !! k = nodePositions st !! k)
  ∧ dragging st' = Some d.
Proof.
  intros Hi Hd Hx Hy. unfold handleMouseMove. rewrite Hd, Hi. simpl.
  repeat split.
  - rewrite lookup_insert_eq, Hx, Hy. do 2 f_equal; ring.
  - intros k Hk. by rewrite lookup_insert_ne.
  - done.
Qed.

Lemma handleMouseMove_moves_dragged_node_only_witness :
  let e := mkMouseEvent (num 10 + num 5) (num 20 + num 3) in
  let st' := handleMouseMove (props_of (Some two_nodes) [] true true) e
               mid_drag_state in
  nodePositions st' !! "a" = Some (mkPosition (num 7 + num 5) (num 9 + num 3))
  ∧ (∀ k, k ≠ "a" → nodePositions st' !! k = nodePositions mid_drag_state !! k)
  ∧ dragging st' = Some drag_of_a.
Proof.
  apply (handleMouseMove_moves_dragged_node_only
           (props_of (Some two_nodes) [] true true) mid_drag_state drag_of_a
           (mkMouseEvent (num 10 + num 5) (num 20 + num 3)) (num 5) (num 3));
    reflexivity.
Defined.

(** C5.  With [interactive] off, no sequence of pointer-down, pointer-move and
    pointer-up events changes the position store: pointer-down leaves the
    state as it is (no drag session is created), pointer-move writes nothing,
    and every node's stored position after the sequence is its stored
    position before. *)
Theorem read_only_ignores_pointer
    (p : Props) (evs : list (Handler * MouseEvent)) (st : State) :
  interactive p = false →
  nodePositions (dispatch_all p evs st) = nodePositions st
  ∧ (∀ nodeId e s, handleMouseDown p nodeId e s = s)
  ∧ (∀ e s, handleMouseMove p e s = s)
  ∧ (dragging st = None → dragging (dispatch_all p evs st) = None).
Proof.
  intros Hi. repeat split.
  - revert st. induction evs as [|[h e] evs IH]; intros st; [done|].
    unfold dispatch_all in *. simpl. rewrite IH.
    by apply dispatch_read_only_store.
  - intros. by apply handleMouseDown_read_only.
  - intros. by apply handleMouseMove_read_only.
  - revert st. induction evs as [|[h e] evs IH]; intros st Hd; [done|].
    unfold dispatch_all in *. simpl. apply IH.
    by apply dispatch_read_only_idle.
Qed.

Lemma read_only_ignores_pointer_witness :
  nodePositions (dispatch_all (props_of (Some two_nodes) [] true false)
                   pointer_sequence dragged_state)
  = nodePositions dragged_state.
Proof.
  apply (read_only_ignores_pointer (props_of (Some two_nodes) [] true false)
           pointer_sequence dragged_state).
  reflexivity.
Defined.

(** The same sequence with [interactive] on moves node [a] by the pointer's
    displacement since pointer-down, (30, 40), and ends the session. *)
Example interactive_drag_moves_a :
  let st' := dispatch_all (props_of (Some two_nodes) [] true true)
               pointer_sequence dragged_state in
  getCurrentPosition (nodePositions st') "a" = mkPosition (num 37) (num 49)
  ∧ dragging st' = None.
Proof.
  split; [|reflexivity].
  simpl. unfold getCurrentPosition.
  rewrite lookup_insert_eq. simpl.
  f_equal; apply Qc_is_canon; reflexivity.
Qed.

(** ** Edges *)

Section Edges.

Implicit Types (ns : list FlowNode) (edge : FlowEdge).

Lemma find_node_None ns k :
  List.find (λ n, bool_decide (node_id n = k)) ns = None ↔ k ∉ node_id <$> ns.
Proof.
  induction ns as [|n ns IH]; simpl.
  - split; [intros _; apply not_elem_of_nil|done].
  - case_bool_decide as Hk.
    + split; [done|]. intros Hnot. exfalso. apply Hnot. rewrite Hk. set_solver.
    + rewrite IH, not_elem_of_cons. naive_solver.
Qed.

Lemma find_node_Some ns k :
  k ∈ node_id <$> ns →
  ∃ n, List.find (λ n, bool_decide (node_id n = k)) ns = Some n ∧ node_id n = k.
Proof.
  intros Hin.
  destruct (List.find _ ns) as [n|] eqn:Hfind.
  - exists n. split; [done|].
    apply List.find_some in Hfind as [_ Hn]. by apply bool_decide_eq_true in Hn.
  - by apply find_node_None in Hfind.
Qed.

Lemma renderEdge_None_iff edge ns :
  renderEdge edge ns = None ↔
  edge_source edge ∉ node_id <$> ns ∨ edge_target edge ∉ node_id <$> ns.
Proof.
  rewrite <- !find_node_None. unfold renderEdge.
  destruct (List.find _ ns) as [s|]; [|naive_solver].
  destruct (List.find _ ns) as [t|]; naive_solver.
Qed.

(** The diagram holds one element per edge that resolves. *)
Lemma render_edges_length (es : list FlowEdge) ns :
  length (render_edges (Some es) ns)
  = length (filter (λ edge, edge_source edge ∈ node_id <$> ns
                            ∧ edge_target edge ∈ node_id <$> ns) es).
Proof.
  unfold render_edges. change (default [] (Some es)) with es.
  induction es as [|edge es IH]; [done|].
  rewrite filter_cons.
  change (omap (λ e, renderEdge e ns) (edge :: es))
    with (match renderEdge edge ns with
          | Some el => el :: omap (λ e, renderEdge e ns) es
          | None => omap (λ e, renderEdge e ns) es
          end).
  destruct (renderEdge edge ns) as [el|] eqn:Hel.
  - rewrite decide_True; [simpl; by rewrite IH|].
    destruct (decide (edge_source edge ∈ node_id <$> ns)) as [?|Hs];
      destruct (decide (edge_target edge ∈ node_id <$> ns)) as [?|Ht]; [done|..];
      exfalso; cut (renderEdge edge ns = None); try congruence;
      apply renderEdge_None_iff; auto.
  - rewrite decide_False; [done|].
    apply renderEdge_None_iff in Hel. naive_solver.
Qed.

Lemma nodesWithCurrentPositions_ids ns (m : gmap string Position) :
  node_id <$> nodesWithCurrentPositions ns m = node_id <$> ns.
Proof.
  unfold nodesWithCurrentPositions. rewrite <- list_fmap_compose.
  by apply list_fmap_ext.
Qed.

End Edges.

(** C2.  [renderEdge] returns nothing for an edge whose source id or target id
    is the id of no node of the sequence, and an element for every other
    edge; it has no failing case.  In the diagram the edges are drawn against
    the nodes at their current positions, which carry the supplied ids, so
    one element is drawn per resolvable edge and none for a dangling one. *)
Theorem renderEdge_skips_dangling (edge : FlowEdge) (ns : list FlowNode) :
  (renderEdge edge ns = None ↔
     edge_source edge ∉ node_id <$> ns ∨ edge_target edge ∉ node_id <$> ns)
  ∧ (is_Some (renderEdge edge ns) ↔
     edge_source edge ∈ node_id <$> ns ∧ edge_target edge ∈ node_id <$> ns)
  ∧ (∀ m, renderEdge edge (nodesWithCurrentPositions ns m) = None ↔
          renderEdge edge ns = None).
Proof.
  split; [apply renderEdge_None_iff|]. split.
  - rewrite <- not_eq_None_Some, renderEdge_None_iff.
    destruct (decide (edge_source edge ∈ node_id <$> ns));
      destruct (decide (edge_target edge ∈ node_id <$> ns)); naive_solver.
  - intros m. by rewrite !renderEdge_None_iff, nodesWithCurrentPositions_ids.
Qed.

Lemma renderEdge_skips_dangling_witness :
  renderEdge dangling_edge two_nodes = None
  ∧ is_Some (renderEdge step_edge two_nodes).
Proof.
  split.
  - apply (proj1 (renderEdge_skips_dangling dangling_edge two_nodes)).
    right. apply (bool_decide_unpack _). vm_compute. exact I.
  - apply (proj1 (proj2 (renderEdge_skips_dangling step_edge two_nodes))).
    split; apply (bool_decide_unpack _); vm_compute; exact I.
Defined.

(** Of the edges handed to the diagram, only the resolvable ones are drawn. *)
Example render_edges_drops_dangling :
  length (render_edges (Some [step_edge; dangling_edge])
            (nodesWithCurrentPositions two_nodes (posMap_of two_nodes))) = 1%nat.
Proof. reflexivity. Qed.



(** The style of an edge is only looked at for [straight] and [step]: any
    other value, the schema's [default] included, draws the cubic curve. *)
Lemma pathD_other_is_cubic (type : option string) (sx sy tx ty my : number) :
  type ≠ Some "straight" → type ≠ Some "step" →
  path_segments (pathD type sx sy tx ty my)
  = Some [MoveTo sx sy; CurveTo sx my tx my tx ty].
Proof.
  intros H1 H2. unfold pathD.
  rewrite !bool_decide_eq_false_2 by done. reflexivity.
Qed.

(** ** Placeholder and error boundary *)

Section Presentation.

Variable cn : string → option string → string.

Lemma no_nodes_spec (o : option (list FlowNode)) :
  no_nodes o = true ↔ o = None ∨ o = Some [].
Proof.
  destruct o as [[|n ns]|]; simpl; naive_solver.
Qed.

Lemma viewBoxEffect_empty p st : no_nodes (nodes p) = true → viewBoxEffect p st = st.
Proof.
  intros Hno. unfold viewBoxEffect. rewrite Hno.
  by rewrite orb_true_r.
Qed.

Lemma mount_loading_placeholder p :
  mount cn (loading_placeholder cn p) = inr (loading_placeholder cn p).
Proof. reflexivity. Qed.

Lemma mount_error_panel cls v sz :
  mount cn (error_panel cn cls v sz) = inr (error_panel cn cls v sz).
Proof. reflexivity. Qed.

Lemma mount_boundary cls v sz child :
  mount cn (FlowErrorBoundaryElement cls v sz child)
  = match mount cn child with
    | inr child' =>
        inr (FlowErrorBoundary_render cn boundary_initial cls v sz child')
    | inl err =>
        inr (FlowErrorBoundary_render cn (getDerivedStateFromError err)
               cls v sz child)
    end.
Proof. reflexivity. Qed.

(** Whatever the props and the state, rendering the component yields a tree:
    no exception leaves it. *)
Lemma mount_TamboReactFlow_total p st :
  ∃ el, mount cn (TamboReactFlow cn p st) = inr el.
Proof.
  unfold TamboReactFlow. destruct (no_nodes (nodes p)).
  - eexists. apply mount_loading_placeholder.
  - rewrite mount_boundary. destruct (mount cn (flow_container cn p st)); eauto.
Qed.

(** A node whose type is absent or one of the schema's renders. *)
Lemma CustomNode_schema_type (node : FlowNode) :
  node_type node ∈ [None; Some "default"; Some "input"; Some "output"; Some "custom"] →
  ∃ el, CustomNode node = inr el.
Proof.
  intros Hty. unfold CustomNode.
  rewrite !elem_of_cons, elem_of_nil in Hty.
  destruct Hty as [-> | [-> | [-> | [-> | [-> | []]]]]];
    simpl; destruct (node_style node ≫= ns_backgroundColor),
             (node_style node ≫= ns_borderColor); simpl; eauto.
Qed.

End Presentation.

(** C9.  When the nodes prop is absent or empty, the store is not reset: both
    effects leave the state as it is, so the store keeps every entry it held,
    and the component renders the loading placeholder. *)
Theorem empty_nodes_keep_store
    (cn : string → option string → string) (p : Props) (st : State) :
  nodes p = None ∨ nodes p = Some [] →
  receiveProps p st = st
  ∧ (∀ k, nodePositions (receiveProps p st) !! k = nodePositions st !! k)
  ∧ TamboReactFlow cn p (receiveProps p st) = loading_placeholder cn p
  ∧ mount cn (TamboReactFlow cn p (receiveProps p st))
    = inr (loading_placeholder cn p).
Proof.
  intros Hno%no_nodes_spec.
  assert (Hst : receiveProps p st = st).
  { unfold receiveProps.
    by rewrite initPositionsEffect_empty, viewBoxEffect_empty. }
  rewrite Hst. unfold TamboReactFlow. rewrite Hno.
  repeat split.
Qed.

Lemma empty_nodes_keep_store_witness :
  receiveProps (props_of (Some []) [] true true) dragged_state = dragged_state
  ∧ nodePositions (receiveProps (props_of None [] true true) dragged_state) !! "a"
    = Some (mkPosition (num 7) (num 9)).
Proof.
  split.
  - apply (empty_nodes_keep_store cn_join (props_of (Some []) [] true true)
             dragged_state).
    right. reflexivity.
  - destruct (empty_nodes_keep_store cn_join (props_of None [] true true)
                dragged_state (or_introl eq_refl)) as (_ & Hkeep & _).
    rewrite Hkeep. reflexivity.
Defined.



(** * Further properties *)

(** ** The store after initialisation, whatever the ids *)

Section StoreKeys.

Implicit Types (ns : list FlowNode).

Lemma length_remove_dups_le (l : list string) :
  (length (remove_dups l) ≤ length l)%nat.
Proof.
  induction l as [|k l IH]; simpl; [done|].
  case_decide; simpl; lia.
Qed.

Lemma posMap_of_lookup_is_Some ns n :
  n ∈ ns → is_Some (posMap_of ns !! node_id n).
Proof.
  intros Hn. apply elem_of_dom. rewrite posMap_of_dom.
  apply elem_of_list_to_set, list_elem_of_fmap. eauto.
Qed.

End StoreKeys.

(** X1.  After the initialisation effect has run on a non-empty collection,
    with or without repeated ids, the keys of the store are exactly the
    supplied ids: every supplied node has an entry, every entry holds the
    supplied position of a node with that id, and the store has at most as
    many entries as there are nodes. *)
Theorem initPositionsEffect_keys (p : Props) (st : State) (ns : list FlowNode) :
  nodes p = Some ns → ns ≠ [] →
  let store := nodePositions (initPositionsEffect p st) in
  dom store = list_to_set (node_id <$> ns)
  ∧ (∀ n, n ∈ ns → is_Some (store !! node_id n))
  ∧ (∀ k pos, store !! k = Some pos →
       ∃ n, n ∈ ns ∧ node_id n = k ∧ node_position n = pos)
  ∧ (Map_size store ≤ length ns)%nat.
Proof.
  intros Hp Hne store.
  assert (Hstore : store = posMap_of ns) by by apply initPositionsEffect_nonempty.
  rewrite Hstore. repeat split.
  - apply posMap_of_dom.
  - intros n. apply posMap_of_lookup_is_Some.
  - apply posMap_of_lookup_Some.
  - rewrite posMap_of_size. etrans; [apply length_remove_dups_le|].
    by rewrite length_fmap.
Qed.

Lemma initPositionsEffect_keys_witness :
  let store :=
    nodePositions (initPositionsEffect (props_of (Some twin_nodes) [] true false)
                     dragged_state) in
  dom store = list_to_set (node_id <$> twin_nodes)
  ∧ (∀ n, n ∈ twin_nodes → is_Some (store !! node_id n))
  ∧ (∀ k pos, store !! k = Some pos →
       ∃ n, n ∈ twin_nodes ∧ node_id n = k ∧ node_position n = pos)
  ∧ (Map_size store ≤ length twin_nodes)%nat.
Proof.
  apply (initPositionsEffect_keys (props_of (Some twin_nodes) [] true false)
           dragged_state twin_nodes).
  - reflexivity.
  - discriminate.
Defined.

(** ** More on the viewport *)

Section ViewportMore.

Lemma viewBoxEffect_result (p : Props) (st : State) (ns : list FlowNode) :
  nodes p = Some ns → ns ≠ [] → fitView p = true →
  let positions := fit_positions ns (nodePositions st) in
  ∃ minX minY maxX maxY,
    is_min minX (pos_x <$> positions) ∧ is_min minY (pos_y <$> positions)
    ∧ is_max maxX (pos_x <$> positions) ∧ is_max maxY (pos_y <$> positions)
    ∧ viewBoxEffect p st
      = setViewBox
          [Num (minX - num 50); Lit " "; Num (minY - num 50); Lit " ";
           Num (max2 ((maxX + num 200) - (minX - num 50)) (num 400)); Lit " ";
           Num (max2 ((maxY + num 100) - (minY - num 50)) (num 300))] st.
Proof.
  intros Hp Hne Hfit positions.
  assert (Hpos : positions ≠ []) by by apply fit_positions_nonempty.
  assert (Hxs : pos_x <$> positions ≠ []) by by destruct positions.
  assert (Hys : pos_y <$> positions ≠ []) by by destruct positions.
  destruct (Math_min_Some _ Hxs) as (minX & HminX & ?).
  destruct (Math_min_Some _ Hys) as (minY & HminY & ?).
  destruct (Math_max_Some _ Hxs) as (maxX & HmaxX & ?).
  destruct (Math_max_Some _ Hys) as (maxY & HmaxY & ?).
  exists minX, minY, maxX, maxY. repeat (split; [done|]).
  unfold viewBoxEffect. rewrite Hp, Hfit.
  destruct ns as [|n ns]; [done|]. simpl.
  fold positions. by rewrite HminX, HminY, HmaxX, HmaxY.
Qed.



(** The viewport only depends on the props and on the store. *)
Lemma viewBoxEffect_frame (p : Props) (st : State) :
  nodePositions (viewBoxEffect p st) = nodePositions st
  ∧ dragging (viewBoxEffect p st) = dragging st.
Proof.
  unfold viewBoxEffect.
  destruct (negb (fitView p) || no_nodes (nodes p)); [done|]. simpl.
  by repeat case_match.
Qed.

(** Either the effect leaves the state alone, or it sets the viewport from
    the four extreme coordinates. *)
Lemma viewBoxEffect_cases (p : Props) (st : State) :
  viewBoxEffect p st = st
  ∨ (negb (fitView p) || no_nodes (nodes p) = false
     ∧ let positions := fit_positions (default [] (nodes p)) (nodePositions st) in
       ∃ a b c d,
         Math_min (pos_x <$> positions) = Some a
         ∧ Math_min (pos_y <$> positions) = Some b
         ∧ Math_max (pos_x <$> positions) = Some c
         ∧ Math_max (pos_y <$> positions) = Some d
         ∧ viewBoxEffect p st
           = setViewBox
               [Num (a - num 50); Lit " "; Num (b - num 50); Lit " ";
                Num (max2 ((c + num 200) - (a - num 50)) (num 400)); Lit " ";
                Num (max2 ((d + num 100) - (b - num 50)) (num 300))] st).
Proof.
  unfold viewBoxEffect.
  destruct (negb (fitView p) || no_nodes (nodes p)); [by left|]. simpl.
  destruct (Math_min (pos_x <$> _)) as [a|]; [|by left].
  destruct (Math_min (pos_y <$> _)) as [b|]; [|by left].
  destruct (Math_max (pos_x <$> _)) as [c|]; [|by left].
  destruct (Math_max (pos_y <$> _)) as [d|]; [|by left].
  right. split; [done|]. by exists a, b, c, d.
Qed.

End ViewportMore.



(** X3.  Fitting the viewport changes nothing but the viewport: the store and
    the drag session are as before.  Fitting twice gives what fitting once
    gives, and with [fitView] off the state is left alone. *)
Theorem viewBoxEffect_idempotent (p : Props) (st : State) :
  viewBoxEffect p (viewBoxEffect p st) = viewBoxEffect p st
  ∧ nodePositions (viewBoxEffect p st) = nodePositions st
  ∧ dragging (viewBoxEffect p st) = dragging st
  ∧ (fitView p = false → viewBoxEffect p st = st).
Proof.
  split; [|split; [apply viewBoxEffect_frame|split; [apply viewBoxEffect_frame|]]].
  - destruct (viewBoxEffect_cases p st) as [Hsame | Hset].
    + by rewrite !Hsame.
    + destruct Hset as (Hguard & a & b & c & d & E1 & E2 & E3 & E4 & ->).
      unfold viewBoxEffect. rewrite Hguard. simpl. by rewrite E1, E2, E3, E4.
  - intros Hoff. unfold viewBoxEffect. by rewrite Hoff.
Qed.

Lemma viewBoxEffect_idempotent_witness :
  viewBoxEffect (props_of (Some two_nodes) [] false true) mid_drag_state
  = mid_drag_state.
Proof.
  apply (viewBoxEffect_idempotent (props_of (Some two_nodes) [] false true)
           mid_drag_state).
  reflexivity.
Defined.

Section Reframe.

Lemma is_min_ext m (xs ys : list number) :
  (∀ x, x ∈ xs ↔ x ∈ ys) → is_min m xs → is_min m ys.
Proof. intros Hext [Hin Hle]. split; [by apply Hext|]. intros x Hx. by apply Hle, Hext. Qed.

Lemma is_max_ext m (xs ys : list number) :
  (∀ x, x ∈ xs ↔ x ∈ ys) → is_max m xs → is_max m ys.
Proof. intros Hext [Hin Hle]. split; [by apply Hext|]. intros x Hx. by apply Hle, Hext. Qed.

Lemma fmap_elem_of_ext {A B} (f : A → B) (l1 l2 : list A) :
  (∀ a, a ∈ l1 ↔ a ∈ l2) → ∀ b, b ∈ f <$> l1 ↔ b ∈ f <$> l2.
Proof. intros Hext b. rewrite !list_elem_of_fmap. naive_solver. Qed.

(** With unique ids the positions of the initialised store are the supplied
    positions. *)
Lemma fit_positions_posMap_of (ns : list FlowNode) :
  NoDup (node_id <$> ns) →
  ∀ pos, pos ∈ fit_positions ns (posMap_of ns) ↔ pos ∈ node_position <$> ns.
Proof.
  intros Hnd pos. rewrite elem_of_fit_positions, list_elem_of_fmap.
  case_bool_decide; [|naive_solver]. split.
  - intros (k & (n & ? & ? & ?)%posMap_of_lookup_Some). eauto.
  - intros (n & -> & Hn). exists (node_id n). by apply posMap_of_lookup_NoDup.
Qed.

End Reframe.

(** X4.  Receiving a non-empty node collection with unique ids while
    [fitView] is on frames the viewport around the supplied positions: the
    rectangle is computed from the least and greatest supplied coordinates,
    and it is the same whatever the state was before (earlier drags and the
    earlier viewport leave no trace). *)
Theorem receiveProps_frames_supplied (p : Props) (st : State) (ns : list FlowNode) :
  nodes p = Some ns → ns ≠ [] → NoDup (node_id <$> ns) → fitView p = true →
  (∃ minX minY maxX maxY,
     is_min minX (pos_x <$> (node_position <$> ns))
     ∧ is_min minY (pos_y <$> (node_position <$> ns))
     ∧ is_max maxX (pos_x <$> (node_position <$> ns))
     ∧ is_max maxY (pos_y <$> (node_position <$> ns))
     ∧ viewBox_rect (viewBox (receiveProps p st))
       = Some (mkRect (minX - num 50) (minY - num 50)
                 (max2 ((maxX + num 200) - (minX - num 50)) (num 400))
                 (max2 ((maxY + num 100) - (minY - num 50)) (num 300))))
  ∧ viewBox (receiveProps p st) = viewBox (receiveProps p initial_state).
Proof.
  intros Hp Hne Hnd Hfit. unfold receiveProps.
  pose proof (fit_positions_posMap_of ns Hnd) as Hext.
  split.
  - destruct (viewBoxEffect_result p (initPositionsEffect p st) ns Hp Hne Hfit)
      as (minX & minY & maxX & maxY & HminX & HminY & HmaxX & HmaxY & ->).
    rewrite (initPositionsEffect_nonempty p st ns Hp Hne)
      in HminX, HminY, HmaxX, HmaxY.
    exists minX, minY, maxX, maxY.
    split; [eapply is_min_ext; [|exact HminX]; by apply fmap_elem_of_ext|].
    split; [eapply is_min_ext; [|exact HminY]; by apply fmap_elem_of_ext|].
    split; [eapply is_max_ext; [|exact HmaxX]; by apply fmap_elem_of_ext|].
    split; [eapply is_max_ext; [|exact HmaxY]; by apply fmap_elem_of_ext|].
    reflexivity.
  - destruct (viewBoxEffect_result p (initPositionsEffect p st) ns Hp Hne Hfit)
      as (a & b & c & d & Ha & Hb & Hc & Hd & ->).
    destruct (viewBoxEffect_result p (initPositionsEffect p initial_state) ns
                Hp Hne Hfit)
      as (a' & b' & c' & d' & Ha' & Hb' & Hc' & Hd' & ->).
    rewrite (initPositionsEffect_nonempty p st ns Hp Hne) in Ha, Hb, Hc, Hd.
    rewrite (initPositionsEffect_nonempty p initial_state ns Hp Hne)
      in Ha', Hb', Hc', Hd'.
    rewrite (is_min_unique _ _ _ _ (reflexivity _) Ha Ha').
    rewrite (is_min_unique _ _ _ _ (reflexivity _) Hb Hb').
    rewrite (is_max_unique _ _ _ _ (reflexivity _) Hc Hc').
    rewrite (is_max_unique _ _ _ _ (reflexivity _) Hd Hd').
    reflexivity.
Qed.

Lemma receiveProps_frames_supplied_witness :
  viewBox (receiveProps (props_of (Some two_nodes) [] true true) mid_drag_state)
  = viewBox (receiveProps (props_of (Some two_nodes) [] true true) initial_state).
Proof.
  apply (receiveProps_frames_supplied (props_of (Some two_nodes) [] true true)
           mid_drag_state two_nodes).
  - reflexivity.
  - discriminate.
  - apply (bool_decide_unpack _). vm_compute. exact I.
  - reflexivity.
Defined.

(** ** More on the drag controller *)

Section DragMore.


Lemma handleMouseMove_session p st d e :
  interactive p = true → dragging st = Some d →
  dragging (handleMouseMove p e st) = Some d
  ∧ viewBox (handleMouseMove p e st) = viewBox st
  ∧ nodePositions (handleMouseMove p e st)
    = <[nodeId d := mkPosition (nodeStartX d + (clientX e - startX d))
                               (nodeStartY d + (clientY e - startY d))]>
        (nodePositions st).
Proof. intros Hi Hd. unfold handleMouseMove. by rewrite Hd, Hi. Qed.


Lemma dispatch_keeps_keys p h e st :
  session_in_store st →
  (∀ k, h = NodeMouseDown k → k ∈ dom (nodePositions st)) →
  dom (nodePositions (dispatch p h e st)) = dom (nodePositions st)
  ∧ session_in_store (dispatch p h e st).
Proof.
  intros Hsess Hdown. destruct h as [k| |]; simpl.
  - unfold handleMouseDown. destruct (interactive p); simpl; [|done].
    split; [done|]. intros d [= <-]. simpl. by apply Hdown.
  - unfold handleMouseMove. destruct (dragging st) as [d|] eqn:Hd; [|done].
    destruct (interactive p); simpl; [|done].
    assert (Hin : nodeId d ∈ dom (nodePositions st)) by by apply Hsess.
    split.
    + rewrite dom_insert_L. set_solver.
    + unfold session_in_store. simpl. intros d' Hd'. rewrite dom_insert_L.
      rewrite Hd in Hd'. injection Hd' as <-. set_solver.
  - split; [done|]. by intros d.
Qed.

Lemma dispatch_all_keeps_keys p evs st :
  session_in_store st →
  (∀ k e, (NodeMouseDown k, e) ∈ evs → k ∈ dom (nodePositions st)) →
  dom (nodePositions (dispatch_all p evs st)) = dom (nodePositions st)
  ∧ session_in_store (dispatch_all p evs st).
Proof.
  revert st. induction evs as [|[h e] evs IH]; intros st Hsess Hdown; [done|].
  destruct (dispatch_keeps_keys p h e st Hsess) as [Hdom Hsess'].
  { intros k ->. apply (Hdown k e). set_solver. }
  destruct (IH (dispatch p h e st) Hsess') as [Hdom' Hsess''].
  { intros k e' Hin. rewrite Hdom. apply (Hdown k e'). set_solver. }
  unfold dispatch_all in *. simpl. by rewrite Hdom', Hdom.
Qed.

Lemma receiveProps_store p st ns :
  nodes p = Some ns → ns ≠ [] →
  nodePositions (receiveProps p st) = posMap_of ns
  ∧ dragging (receiveProps p st) = dragging st.
Proof.
  intros Hp Hne. unfold receiveProps.
  destruct (viewBoxEffect_frame p (initPositionsEffect p st)) as [-> ->].
  split; [by apply initPositionsEffect_nonempty|].
  unfold initPositionsEffect. by destruct (has_nodes (nodes p)).
Qed.

End DragMore.



(** X6.  Once a non-empty node collection has been received, pointer events
    on the rendered nodes never add a key to the store or remove one: after
    any sequence of events whose pointer-downs hit supplied nodes, the keys of
    the store are still exactly the supplied ids.  This needs the session that
    was open when the nodes arrived, if any, to be on a supplied node. *)
Theorem pointer_events_keep_keys
    (p : Props) (st : State) (ns : list FlowNode)
    (evs : list (Handler * MouseEvent)) :
  nodes p = Some ns → ns ≠ [] →
  (∀ d, dragging st = Some d → nodeId d ∈ node_id <$> ns) →
  (∀ k e, (NodeMouseDown k, e) ∈ evs → k ∈ node_id <$> ns) →
  dom (nodePositions (dispatch_all p evs (receiveProps p st)))
  = list_to_set (node_id <$> ns).
Proof.
  intros Hp Hne Hsess Hdown.
  destruct (receiveProps_store p st ns Hp Hne) as [Hstore Hdrag].
  destruct (dispatch_all_keeps_keys p evs (receiveProps p st)) as [-> _].
  - intros d Hd. rewrite Hstore, posMap_of_dom, elem_of_list_to_set.
    apply Hsess. by rewrite <- Hdrag.
  - intros k e Hin. rewrite Hstore, posMap_of_dom, elem_of_list_to_set. eauto.
  - by rewrite Hstore, posMap_of_dom.
Qed.

Lemma pointer_events_keep_keys_witness :
  dom (nodePositions
         (dispatch_all (props_of (Some two_nodes) [] true true) pointer_sequence
            (receiveProps (props_of (Some two_nodes) [] true true) dragged_state)))
  = list_to_set (node_id <$> two_nodes).
Proof.
  apply (pointer_events_keep_keys (props_of (Some two_nodes) [] true true)
           dragged_state two_nodes pointer_sequence).
  - reflexivity.
  - discriminate.
  - intros d Hd. discriminate Hd.
  - intros k e Hin. unfold pointer_sequence in Hin.
    rewrite !elem_of_cons, elem_of_nil in Hin.
    destruct Hin as [[= -> _] | [[=] | [[=] | [[=] | []]]]].
    apply (bool_decide_unpack _). vm_compute. exact I.
Defined.

(** X7.  Replacing the nodes does not end a drag.  The session that was open
    survives the reset of the store, and in interactive mode the next
    pointer-move writes an entry under the session's node id even when no
    supplied node carries that id: the store then holds a key that is the id
    of no node. *)
Theorem stale_session_writes_entry
    (p : Props) (st : State) (d : DragSession) (e : MouseEvent)
    (ns : list FlowNode) :
  interactive p = true → dragging st = Some d →
  nodes p = Some ns → ns ≠ [] → nodeId d ∉ node_id <$> ns →
  let st1 := receiveProps p st in
  let st2 := handleMouseMove p e st1 in
  dragging st1 = Some d
  ∧ nodePositions st1 !! nodeId d = None
  ∧ nodePositions st2 !! nodeId d
    = Some (mkPosition (nodeStartX d + (clientX e - startX d))
                       (nodeStartY d + (clientY e - startY d)))
  ∧ dom (nodePositions st2) = {[ nodeId d ]} ∪ list_to_set (node_id <$> ns).
Proof.
  intros Hi Hd Hp Hne Hgone st1 st2.
  destruct (receiveProps_store p st ns Hp Hne) as [Hstore Hdrag].
  assert (Hd1 : dragging st1 = Some d) by (unfold st1; by rewrite Hdrag).
  destruct (handleMouseMove_session p st1 d e Hi Hd1) as (_ & _ & Hs2).
  fold st2 in Hs2. repeat split.
  - exact Hd1.
  - unfold st1. rewrite Hstore. apply not_elem_of_dom.
    by rewrite posMap_of_dom, elem_of_list_to_set.
  - rewrite Hs2. apply lookup_insert_eq.
  - rewrite Hs2, dom_insert_L. unfold st1. by rewrite Hstore, posMap_of_dom.
Qed.

Lemma stale_session_writes_entry_witness :
  let p := props_of (Some two_nodes) [] true true in
  let st2 := handleMouseMove p (mkMouseEvent (num 11) (num 22))
               (receiveProps p stale_drag_state) in
  nodePositions st2 !! "gone"
  = Some (mkPosition (num 7 + (num 11 - num 10)) (num 9 + (num 22 - num 20)))
  ∧ dom (nodePositions st2) = {[ "gone" ]} ∪ list_to_set (node_id <$> two_nodes).
Proof.
  destruct (stale_session_writes_entry (props_of (Some two_nodes) [] true true)
              stale_drag_state
              (mkDrag "gone" (num 10) (num 20) (num 7) (num 9))
              (mkMouseEvent (num 11) (num 22)) two_nodes)
    as (_ & _ & Hentry & Hdom).
  - reflexivity.
  - reflexivity.
  - reflexivity.
  - discriminate.
  - apply (bool_decide_unpack _). vm_compute. exact I.
  - split; [exact Hentry | exact Hdom].
Defined.

(** ** More on CustomNode and the boundary *)

Section CustomNodeMore.

Lemma record_get_Undefined {A} (record : list (string * A)) (key : string) :
  record_get record key = Undefined ↔
  (key ∉ record.*1) ∧ (key ∉ Object_prototype_keys).
Proof.
  unfold record_get.
  destruct (List.find _ record) as [kv|] eqn:Hfind.
  - split; [done|]. intros [Hnot _]. exfalso. apply Hnot.
    apply List.find_some in Hfind as [Hin Hk%bool_decide_eq_true].
    apply list_elem_of_fmap. exists kv. split; [done|]. by apply list_elem_of_In.
  - assert (Hnot : key ∉ record.*1).
    { intros ([k a] & -> & Hin)%list_elem_of_fmap.
      apply list_elem_of_In in Hin.
      pose proof (List.find_none _ _ Hfind _ Hin) as Hk.
      by apply bool_decide_eq_false in Hk. }
    case_bool_decide; naive_solver.
Qed.

Lemma CustomNode_inl (node : FlowNode) (err : Error) :
  CustomNode node = inl err ↔
  record_get nodeTypeColors (default "default" (node_type node)) = Undefined
  ∧ ((node_style node ≫= ns_backgroundColor) = None
     ∨ (node_style node ≫= ns_borderColor) = None)
  ∧ err = TypeError "Cannot read properties of undefined".
Proof.
  unfold CustomNode.
  destruct (record_get nodeTypeColors _);
    destruct (node_style node ≫= ns_backgroundColor),
             (node_style node ≫= ns_borderColor); simpl; naive_solver.
Qed.

Lemma CustomNode_with_position (n : FlowNode) (pos : Position) :
  CustomNode (with_position n pos) = CustomNode n.
Proof. reflexivity. Qed.

End CustomNodeMore.

(** X8.  Rendering a node throws in exactly one situation: its type (or
    [default] when it has none) is neither a key of the colour table nor a
    member every object inherits, and its style leaves out the background
    colour or the border colour.  The exception is then a [TypeError].  So a
    node of a schema type never throws, and neither does a node whose style
    gives both colours, whatever its type. *)
Theorem CustomNode_throws_iff (node : FlowNode) :
  let type := default "default" (node_type node) in
  (node_throws node ↔
     (type ∉ ["input"; "output"; "default"; "custom"])
     ∧ (type ∉ Object_prototype_keys)
     ∧ ((node_style node ≫= ns_backgroundColor) = None
        ∨ (node_style node ≫= ns_borderColor) = None))
  ∧ (∀ err, CustomNode node = inl err →
            err = TypeError "Cannot read properties of undefined").
Proof.
  intros type. split.
  - unfold node_throws. split.
    + intros [err (Hundef & Hstyle & _)%CustomNode_inl].
      by apply record_get_Undefined in Hundef as [? ?].
    + intros (Hkey & Hproto & Hstyle).
      exists (TypeError "Cannot read properties of undefined").
      apply CustomNode_inl. split; [|done].
      by apply record_get_Undefined.
  - by intros err (_ & _ & ->)%CustomNode_inl.
Qed.

Lemma CustomNode_throws_iff_witness :
  node_throws (typed_node "a" "decision" 0 0)
  ∧ ¬ node_throws styled_odd_node
  ∧ ¬ node_throws (typed_node "b" "output" 0 0)
  ∧ ¬ node_throws (typed_node "c" "constructor" 0 0).
Proof.
  split; [|split; [|split]].
  - apply (proj1 (CustomNode_throws_iff (typed_node "a" "decision" 0 0))).
    split; [|split].
    + apply (bool_decide_unpack _). vm_compute. exact I.
    + apply (bool_decide_unpack _). vm_compute. exact I.
    + left. reflexivity.
  - intros Hthrows.
    apply (proj1 (CustomNode_throws_iff styled_odd_node)) in Hthrows
      as (_ & _ & [Hbg | Hborder]); discriminate.
  - intros Hthrows.
    apply (proj1 (CustomNode_throws_iff (typed_node "b" "output" 0 0)))
      in Hthrows as (Hkey & _).
    apply Hkey. apply (bool_decide_unpack _). vm_compute. exact I.
  - intros Hthrows.
    apply (proj1 (CustomNode_throws_iff (typed_node "c" "constructor" 0 0)))
      in Hthrows as (_ & Hproto & _).
    apply Hproto. apply (bool_decide_unpack _). vm_compute. exact I.
Defined.

Section MountMore.

Variable cn : string → option string → string.

Lemma mount_Host tag key props children :
  mount cn (Host tag key props children)
  = match mount_all cn children with
    | inl err => inl err
    | inr children' => inr (Host tag key props children')
    end.
Proof. reflexivity. Qed.

Lemma mount_all_cons c l :
  mount_all cn (c :: l)
  = match mount cn c with
    | inl err => inl err
    | inr c' =>
        match mount_all cn l with
        | inl err => inl err
        | inr l' => inr (c' :: l')
        end
    end.
Proof. reflexivity. Qed.

Lemma mount_all_app l1 l2 :
  mount_all cn (l1 ++ l2)
  = match mount_all cn l1 with
    | inl err => inl err
    | inr l1' =>
        match mount_all cn l2 with
        | inl err => inl err
        | inr l2' => inr (l1' ++ l2')
        end
    end.
Proof.
  induction l1 as [|c l1 IH].
  - simpl. by destruct (mount_all cn l2).
  - rewrite <- app_comm_cons, !mount_all_cons, IH.
    destruct (mount cn c); [done|].
    destruct (mount_all cn l1); [done|].
    by destruct (mount_all cn l2).
Qed.

(** A rendered edge holds no component: rendering it changes nothing. *)
Lemma mount_renderEdge edge ns el :
  renderEdge edge ns = Some el → mount cn el = inr el.
Proof.
  unfold renderEdge.
  destruct (List.find _ ns); [|done]. destruct (List.find _ ns); [|done].
  intros [= <-]. by destruct (truthy (edge_label edge)).
Qed.

Lemma mount_all_render_edges es ns :
  mount_all cn (render_edges es ns) = inr (render_edges es ns).
Proof.
  unfold render_edges. induction (default [] es) as [|edge l IH]; [done|].
  change (omap (λ e, renderEdge e ns) (edge :: l))
    with (match renderEdge edge ns with
          | Some el => el :: omap (λ e, renderEdge e ns) l
          | None => omap (λ e, renderEdge e ns) l
          end).
  destruct (renderEdge edge ns) as [el|] eqn:Hel; [|done].
  by rewrite mount_all_cons, (mount_renderEdge _ _ _ Hel), IH.
Qed.

(** The rendered [foreignObject] of a node, given what its [CustomNode]
    rendered to. *)
Lemma mount_render_node p st node :
  mount cn (render_node p st node)
  = match CustomNode node with
    | inl err => inl err
    | inr body =>
        match render_node p st node with
        | Host tag key props _ => inr (Host tag key props [body])
        | other => inr other
        end
    end.
Proof.
  unfold render_node. rewrite mount_Host, mount_all_cons. simpl.
  by destruct (CustomNode node).
Qed.

Lemma mount_all_render_nodes_inr p st (l : list FlowNode) :
  (∀ n, n ∈ l → ¬ node_throws n) →
  ∃ l', mount_all cn (render_node p st <$> l) = inr l'
        ∧ length l' = length l.
Proof.
  induction l as [|n l IH]; intros Hok; [by exists []|].
  destruct IH as (l' & Hl' & Hlen); [intros; apply Hok; set_solver|].
  rewrite fmap_cons, mount_all_cons, mount_render_node, Hl'.
  destruct (CustomNode n) as [err|body] eqn:Hn.
  - exfalso. apply (Hok n); [set_solver|]. by exists err.
  - eexists. split; [reflexivity|]. simpl. by rewrite Hlen.
Qed.

Lemma mount_all_render_nodes_inl p st (l : list FlowNode) n :
  n ∈ l → node_throws n →
  ∃ err, mount_all cn (render_node p st <$> l) = inl err.
Proof.
  induction l as [|n' l IH]; intros Hin Hthrows; [by apply elem_of_nil in Hin|].
  rewrite fmap_cons, mount_all_cons, mount_render_node.
  destruct (CustomNode n') as [err|body] eqn:Hn'; [eauto|].
  apply elem_of_cons in Hin as [-> | Hin].
  - destruct Hthrows as [err Herr]. congruence.
  - destruct (IH Hin Hthrows) as [err ->]. eauto.
Qed.

Lemma node_throws_with_position n pos :
  node_throws (with_position n pos) ↔ node_throws n.
Proof. unfold node_throws. by rewrite CustomNode_with_position. Qed.

Lemma nodesWithCurrentPositions_throws ns m :
  (∃ n, n ∈ nodesWithCurrentPositions ns m ∧ node_throws n)
  ↔ (∃ n, n ∈ ns ∧ node_throws n).
Proof.
  unfold nodesWithCurrentPositions. split.
  - intros (n' & (n & -> & Hn)%list_elem_of_fmap & Hthrows).
    exists n. split; [done|]. by apply node_throws_with_position in Hthrows.
  - intros (n & Hn & Hthrows). eexists. split.
    + apply list_elem_of_fmap. eauto.
    + by apply node_throws_with_position.
Qed.

(** The container renders unless a node throws. *)
Lemma mount_flow_container p st :
  (∃ n, n ∈ default [] (nodes p) ∧ node_throws n)
  ∧ (∃ err, mount cn (flow_container cn p st) = inl err)
  ∨ (¬ (∃ n, n ∈ default [] (nodes p) ∧ node_throws n))
    ∧ (∃ inner, mount cn (flow_container cn p st)
                = inr (Host "div" None
                         [ str_prop "className" (container_className cn p) ]
                         [ Host "div" None
                             [ str_prop "className" "p-4 h-full flex flex-col" ]
                             inner ])).
Proof.
  set (ns := default [] (nodes p)).
  set (nwcp := nodesWithCurrentPositions ns (nodePositions st)).
  assert (Hdec : (∃ n, n ∈ nwcp ∧ node_throws n)
                 ∨ (∀ n, n ∈ nwcp → ¬ node_throws n)).
  { induction nwcp as [|n l IH]; [right; intros n Hn; by apply elem_of_nil in Hn|].
    destruct (CustomNode n) as [err|body] eqn:Hn.
    - left. exists n. split; [set_solver|]. by exists err.
    - destruct IH as [(n' & ? & ?) | Hall].
      + left. exists n'. split; [set_solver|done].
      + right. intros n' [-> | Hn']%elem_of_cons; [|by apply Hall].
        intros [err Herr]. congruence. }
  unfold flow_container. fold ns. fold nwcp.
  rewrite mount_Host, mount_all_cons, mount_Host, mount_all_app.
  assert (Htitle : ∀ l,
    l = match truthy (title p) with
        | Some t =>
            [ Host "h3" None
                [ str_prop "className" "text-lg font-medium mb-4 text-foreground" ]
                [ Text t ] ]
        | None => []
        end → mount_all cn l = inr l).
  { intros l ->. by destruct (truthy (title p)). }
  rewrite (Htitle _ eq_refl).
  rewrite mount_all_cons, mount_Host, mount_all_cons, mount_Host.
  rewrite !mount_all_app, mount_all_render_edges.
  destruct Hdec as [(n & Hn & Hthrows) | Hall].
  - left. split; [apply (nodesWithCurrentPositions_throws ns (nodePositions st)); eauto|].
    destruct (mount_all_render_nodes_inl p st nwcp n Hn Hthrows) as [err ->].
    by exists err.
  - right. split.
    + intros Hex.
      apply (nodesWithCurrentPositions_throws ns (nodePositions st)) in Hex
        as (n & Hn & Hthrows).
      by apply (Hall n).
    + destruct (mount_all_render_nodes_inr p st nwcp Hall) as (l' & -> & _).
      simpl. eauto.
Qed.

End MountMore.

(** X9.  With nodes to show, the component's output is the error panel exactly
    when some supplied node throws while it renders: one such node replaces
    the whole diagram, edges and sound nodes included.  When no node throws
    the output is the diagram's container. *)
Theorem error_panel_iff_node_throws
    (cn : string → option string → string) (p : Props) (st : State)
    (ns : list FlowNode) :
  nodes p = Some ns → ns ≠ [] →
  (mount cn (TamboReactFlow cn p st)
   = inr (error_panel cn (className p) (variant p) (size p))
   ↔ ∃ n, n ∈ ns ∧ node_throws n)
  ∧ (¬ (∃ n, n ∈ ns ∧ node_throws n) →
     ∃ inner, mount cn (TamboReactFlow cn p st)
              = inr (Host "div" None
                       [ str_prop "className" (container_className cn p) ]
                       [ Host "div" None
                           [ str_prop "className" "p-4 h-full flex flex-col" ]
                           inner ])).
Proof.
  intros Hp Hne.
  assert (Hno : no_nodes (nodes p) = false).
  { rewrite Hp. by destruct ns. }
  unfold TamboReactFlow. rewrite Hno, mount_boundary.
  destruct (mount_flow_container cn p st)
    as [[Hthrows [err ->]] | [Hsound [inner ->]]];
    rewrite Hp in *; simpl in *.
  - split; [done|]. by intros [].
  - split; [|eauto]. split; [|done].
    unfold FlowErrorBoundary_render, error_panel. simpl. intros [=].
Qed.

Lemma error_panel_iff_node_throws_witness :
  mount cn_join
    (TamboReactFlow cn_join
       (props_of (Some (two_nodes ++ odd_node)) [step_edge] true false)
       initial_state)
  = inr (error_panel cn_join None None None)
  ↔ ∃ n, n ∈ two_nodes ++ odd_node ∧ node_throws n.
Proof.
  apply (error_panel_iff_node_throws cn_join
           (props_of (Some (two_nodes ++ odd_node)) [step_edge] true false)
           initial_state (two_nodes ++ odd_node)).
  - reflexivity.
  - discriminate.
Defined.

(** X10.  Whatever the component shows (the loading placeholder, the diagram
    or the error panel), rendering ends without an exception and the
    outermost element carries the class list
    [cn(flowVariants({ variant, size }), className)]. *)
Theorem output_root_className
    (cn : string → option string → string) (p : Props) (st : State) :
  ∃ el, mount cn (TamboReactFlow cn p st) = inr el
        ∧ root_className el
          = Some (PVal (VStr (cn (flowVariants (variant p) (size p))
                                (className p)))).
Proof.
  unfold TamboReactFlow. destruct (no_nodes (nodes p)).
  - eexists. split; [apply mount_loading_placeholder|done].
  - rewrite mount_boundary.
    destruct (mount_flow_container cn p st) as [[_ [err ->]] | [_ [inner ->]]];
      eexists; (split; [reflexivity|done]).
Qed.

(** ** More on edges *)

Section EdgesMore.

Implicit Types (ns : list FlowNode) (edge : FlowEdge) (m : gmap string Position).

(** Whatever the connector type, the path data is well formed and runs from
    the first anchor to the second. *)
Lemma pathD_runs_between (type : option string) (sx sy tx ty my : number) :
  ∃ segs, path_segments (pathD type sx sy tx ty my) = Some segs
          ∧ runs_between segs sx sy tx ty.
Proof.
  unfold pathD. repeat case_bool_decide; eexists; (split; [reflexivity|done]).
Qed.

Lemma find_nodesWithCurrentPositions ns m k :
  List.find (λ n, bool_decide (node_id n = k)) (nodesWithCurrentPositions ns m)
  = (λ n, with_position n (getCurrentPosition m (node_id n)))
    <$> List.find (λ n, bool_decide (node_id n = k)) ns.
Proof.
  induction ns as [|n ns IH]; [done|].
  simpl. by case_bool_decide.
Qed.

Lemma find_current_position ns m k :
  k ∈ node_id <$> ns →
  ∃ n, List.find (λ n, bool_decide (node_id n = k)) (nodesWithCurrentPositions ns m)
       = Some n
       ∧ node_id n = k ∧ node_position n = getCurrentPosition m k.
Proof.
  intros (n & Hfind & <-)%find_node_Some.
  rewrite find_nodesWithCurrentPositions, Hfind. simpl. eauto.
Qed.

End EdgesMore.

(** X11.  In the diagram an edge is drawn against the store, not against the
    supplied positions: for a resolvable edge of any connector type, known to
    the schema or not, the path data is well formed, starts at the source's
    current position plus (60, 25) and ends at the target's current position
    plus (60, 25). *)
Theorem renderEdge_follows_store
    (edge : FlowEdge) (ns : list FlowNode) (m : gmap string Position) :
  resolves ns edge →
  let source := getCurrentPosition m (edge_source edge) in
  let target := getCurrentPosition m (edge_target edge) in
  ∃ el d segs,
    renderEdge edge (nodesWithCurrentPositions ns m) = Some el
    ∧ edge_path_d el = Some d
    ∧ path_segments d = Some segs
    ∧ runs_between segs (pos_x source + num 60) (pos_y source + num 25)
                        (pos_x target + num 60) (pos_y target + num 25).
Proof.
  intros [Hs Ht] source target.
  destruct (find_current_position ns m _ Hs) as (s & Hfs & _ & Hps).
  destruct (find_current_position ns m _ Ht) as (t & Hft & _ & Hpt).
  unfold renderEdge. rewrite Hfs, Hft, Hps, Hpt. fold source target.
  destruct (pathD_runs_between (edge_type edge)
              (pos_x source + num 60) (pos_y source + num 25)
              (pos_x target + num 60) (pos_y target + num 25)
              ((pos_y source + num 25 + (pos_y target + num 25)) / num 2))
    as (segs & Hsegs & Hruns).
  eexists _, _, segs. split; [reflexivity|]. split; [reflexivity|]. done.
Qed.

Lemma renderEdge_follows_store_witness :
  ∃ el d segs,
    renderEdge labelled_edge
      (nodesWithCurrentPositions two_nodes (nodePositions mid_drag_state))
    = Some el
    ∧ edge_path_d el = Some d
    ∧ path_segments d = Some segs
    ∧ runs_between segs (num 7 + num 60) (num 9 + num 25)
                        (num 100 + num 60) (num 40 + num 25).
Proof.
  apply (renderEdge_follows_store labelled_edge two_nodes
           (nodePositions mid_drag_state)).
  split; apply (bool_decide_unpack _); vm_compute; exact I.
Defined.

(** X12.  A resolvable edge with a non-empty label gets one [text] child, at
    the midpoint of its two anchors raised by 10, holding the label; an edge
    without label, or with the empty label, gets none.  The label never
    changes the path data. *)
Theorem renderEdge_label (edge : FlowEdge) (ns : list FlowNode)
    (sourceNode targetNode : FlowNode) :
  List.find (λ n, bool_decide (node_id n = edge_source edge)) ns = Some sourceNode →
  List.find (λ n, bool_decide (node_id n = edge_target edge)) ns = Some targetNode →
  let sourceX := pos_x (node_position sourceNode) + num 60 in
  let sourceY := pos_y (node_position sourceNode) + num 25 in
  let targetX := pos_x (node_position targetNode) + num 60 in
  let targetY := pos_y (node_position targetNode) + num 25 in
  let midX := (sourceX + targetX) / num 2 in
  let midY := (sourceY + targetY) / num 2 in
  ∃ el,
    renderEdge edge ns = Some el
    ∧ (∀ l, edge_label edge = Some l → l ≠ "" →
         ∃ txt, find_all "text" el = [txt]
                ∧ el_prop "x" txt = Some (PVal (VNum midX))
                ∧ el_prop "y" txt = Some (PVal (VNum (midY - num 10)))
                ∧ el_children txt = [Text l])
    ∧ (edge_label edge = None ∨ edge_label edge = Some "" →
       find_all "text" el = [])
    ∧ edge_path_d el
      = Some (pathD (edge_type edge) sourceX sourceY targetX targetY midY).
Proof.
  intros Hs Ht sourceX sourceY targetX targetY midX midY.
  unfold renderEdge. rewrite Hs, Ht.
  eexists. split; [reflexivity|].
  fold sourceX sourceY targetX targetY midX midY.
  destruct (edge_label edge) as [[|c l]|]; simpl.
  - split; [by intros l [= <-]|]. done.
  - split; [|split; [by intros [|]|done]].
    intros l' [= <-] _. eexists. split; [reflexivity|]. done.
  - split; [by intros l|]. done.
Qed.

Lemma renderEdge_label_witness :
  ∃ el,
    renderEdge labelled_edge two_nodes = Some el
    ∧ ∃ txt, find_all "text" el = [txt] ∧ el_children txt = [Text "Verified"].
Proof.
  destruct (renderEdge_label labelled_edge two_nodes
              (plain_node "a" 0 0) (plain_node "b" 100 40) eq_refl eq_refl)
    as (el & Hel & Hlabel & _).
  exists el. split; [exact Hel|].
  destruct (Hlabel "Verified" eq_refl) as (txt & Htxt & _ & _ & Hch);
    [discriminate|].
  exists txt. split; [exact Htxt | exact Hch].
Defined.

(** X13.  Every rendered edge is keyed by its id and carries its own arrow
    marker: the marker's id is [arrowhead-] followed by the edge id, the path's
    [markerEnd] refers to that id, and the arrow is filled with the path's
    stroke colour, which is the style's stroke or [#94a3b8].  The stroke width
    is the style's or 2, and the path is dashed exactly when the edge is
    animated.  Edges with different ids get different marker ids. *)
Theorem renderEdge_arrow (edge : FlowEdge) (ns : list FlowNode) (el : Element) :
  renderEdge edge ns = Some el →
  let stroke := default "#94a3b8" (edge_style edge ≫= es_stroke) in
  el_key el = Some (edge_id edge)
  ∧ (edge_marker el ≫= el_prop "id")
    = Some (PVal (VStr ("arrowhead-" +:+ edge_id edge)))
  ∧ path_prop "markerEnd" el
    = Some (PVal (VStr ("url(#arrowhead-" +:+ edge_id edge +:+ ")")))
  ∧ path_prop "stroke" el = Some (PVal (VStr stroke))
  ∧ (edge_arrow el ≫= el_prop "fill") = Some (PVal (VStr stroke))
  ∧ path_prop "strokeWidth" el
    = Some (PVal (VNum (default (num 2) (edge_style edge ≫= es_strokeWidth))))
  ∧ path_prop "strokeDasharray" el
    = (if default false (edge_animated edge) then Some (PVal (VStr "5,5"))
       else None)
  ∧ (∀ edge' ns' el',
       renderEdge edge' ns' = Some el' →
       (edge_marker el' ≫= el_prop "id") = (edge_marker el ≫= el_prop "id") →
       edge_id edge' = edge_id edge).
Proof.
  unfold renderEdge.
  destruct (List.find _ ns); [|done]. destruct (List.find _ ns); [|done].
  intros [= <-]. simpl.
  repeat (split; [by destruct (default false (edge_animated edge))|]).
  intros edge' ns' el'.
  destruct (List.find _ ns'); [|done]. destruct (List.find _ ns'); [|done].
  intros [= <-]. simpl. intros [= Hid]. exact Hid.
Qed.

Lemma renderEdge_arrow_witness :
  ∃ el, renderEdge labelled_edge two_nodes = Some el
        ∧ path_prop "stroke" el = Some (PVal (VStr "#f00"))
        ∧ (edge_arrow el ≫= el_prop "fill") = Some (PVal (VStr "#f00"))
        ∧ path_prop "strokeDasharray" el = Some (PVal (VStr "5,5")).
Proof.
  destruct (renderEdge labelled_edge two_nodes) as [el|] eqn:Hel;
    [|discriminate Hel].
  exists el. split; [reflexivity|].
  destruct (renderEdge_arrow labelled_edge two_nodes el Hel)
    as (_ & _ & _ & Hstroke & Hfill & _ & Hdash & _).
  split; [exact Hstroke|]. split; [exact Hfill | exact Hdash].
Defined.

(** ** The shape of the diagram *)

Section Diagram.

Variable cn : string → option string → string.

Lemma find_all_Host tag t key props children :
  find_all tag (Host t key props children)
  = (if bool_decide (t = tag) then [Host t key props children] else [])
    ++ flat_map (find_all tag) children.
Proof. reflexivity. Qed.

Lemma find_all_Host_skip tag t key props children :
  tag ≠ t →
  find_all tag (Host t key props children) = flat_map (find_all tag) children.
Proof. intros Hne. rewrite find_all_Host. by rewrite bool_decide_eq_false_2. Qed.

Lemma flat_map_singleton {A B} (f : A → list B) (a : A) : flat_map f [a] = f a.
Proof. simpl. apply app_nil_r. Qed.

(** Below the container only edges and nodes can hold an element whose tag is
    not one of [div], [h3], [svg] and [style]. *)
Lemma find_all_flow_container tag p st :
  tag ∉ ["div"; "h3"; "svg"; "style"] →
  find_all tag (flow_container cn p st)
  = flat_map (find_all tag)
      (render_edges (edges p)
         (nodesWithCurrentPositions (default [] (nodes p)) (nodePositions st)))
    ++ flat_map (find_all tag)
         (render_node p st
          <$> nodesWithCurrentPositions (default [] (nodes p)) (nodePositions st)).
Proof.
  intros Htag.
  assert (Hdiv : tag ≠ "div") by set_solver.
  assert (Hh3 : tag ≠ "h3") by set_solver.
  assert (Hsvg : tag ≠ "svg") by set_solver.
  assert (Hstyle : tag ≠ "style") by set_solver.
  unfold flow_container.
  rewrite (find_all_Host_skip tag "div") by done.
  rewrite flat_map_singleton, (find_all_Host_skip tag "div") by done.
  rewrite List.flat_map_app.
  assert (Htitle :
    flat_map (find_all tag)
      match truthy (title p) with
      | Some t =>
          [ Host "h3" None
              [ str_prop "className" "text-lg font-medium mb-4 text-foreground" ]
              [ Text t ] ]
      | None => []
      end = []).
  { destruct (truthy (title p)); [|done].
    by rewrite flat_map_singleton, (find_all_Host_skip tag "h3"). }
  rewrite Htitle, app_nil_l.
  rewrite flat_map_singleton, (find_all_Host_skip tag "div") by done.
  rewrite flat_map_singleton, (find_all_Host_skip tag "svg") by done.
  rewrite !List.flat_map_app.
  by rewrite flat_map_singleton, (find_all_Host_skip tag "style").
Qed.

Lemma find_all_render_node_foreignObject p st (l : list FlowNode) :
  flat_map (find_all "foreignObject") (render_node p st <$> l)
  = render_node p st <$> l.
Proof.
  induction l as [|n l IH]; [done|].
  rewrite fmap_cons. simpl. by rewrite IH.
Qed.

Lemma find_all_render_node_path p st (l : list FlowNode) :
  flat_map (find_all "path") (render_node p st <$> l) = [].
Proof. induction l as [|n l IH]; [done|]. rewrite fmap_cons. simpl. apply IH. Qed.

Lemma find_all_renderEdge edge ns el :
  renderEdge edge ns = Some el →
  find_all "foreignObject" el = [] ∧ length (find_all "path" el) = 1%nat.
Proof.
  unfold renderEdge.
  destruct (List.find _ ns); [|done]. destruct (List.find _ ns); [|done].
  intros [= <-]. by destruct (truthy (edge_label edge)).
Qed.

Lemma find_all_render_edges es ns :
  flat_map (find_all "foreignObject") (render_edges es ns) = []
  ∧ length (flat_map (find_all "path") (render_edges es ns))
    = length (render_edges es ns).
Proof.
  unfold render_edges. induction (default [] es) as [|edge l [IH1 IH2]]; [done|].
  change (omap (λ e, renderEdge e ns) (edge :: l))
    with (match renderEdge edge ns with
          | Some el => el :: omap (λ e, renderEdge e ns) l
          | None => omap (λ e, renderEdge e ns) l
          end).
  destruct (renderEdge edge ns) as [el|] eqn:Hel; [|done].
  destruct (find_all_renderEdge _ _ _ Hel) as [Hfo Hpath].
  change (flat_map ?f (el :: ?l')) with (f el ++ flat_map f l').
  rewrite Hfo, IH1. split; [done|].
  change (flat_map ?f (el :: ?l')) with (f el ++ flat_map f l').
  rewrite length_app, Hpath, IH2. done.
Qed.

Lemma resolves_current_positions ns m edge :
  resolves (nodesWithCurrentPositions ns m) edge ↔ resolves ns edge.
Proof. unfold resolves. by rewrite nodesWithCurrentPositions_ids. Qed.

(** The [foreignObject] elements of the diagram are the rendered nodes. *)
Lemma diagram_boxes p st ns :
  nodes p = Some ns → ns ≠ [] →
  find_all "foreignObject" (TamboReactFlow cn p st)
  = render_node p st <$> nodesWithCurrentPositions ns (nodePositions st).
Proof.
  intros Hp Hne.
  assert (Hno : no_nodes (nodes p) = false) by (rewrite Hp; by destruct ns).
  unfold TamboReactFlow. rewrite Hno.
  change (find_all ?t (FlowErrorBoundaryElement _ _ _ ?c)) with (find_all t c).
  rewrite find_all_flow_container
    by (apply (bool_decide_unpack _); vm_compute; exact I).
  rewrite Hp. simpl default.
  by rewrite (proj1 (find_all_render_edges _ _)), find_all_render_node_foreignObject.
Qed.

Lemma diagram_boxes_xy p st ns :
  nodes p = Some ns → ns ≠ [] →
  (λ box, (el_prop "x" box, el_prop "y" box))
  <$> find_all "foreignObject" (TamboReactFlow cn p st)
  = (λ n, (Some (PVal (VNum (pos_x (getCurrentPosition (nodePositions st)
                                      (node_id n))))),
           Some (PVal (VNum (pos_y (getCurrentPosition (nodePositions st)
                                      (node_id n))))))) <$> ns.
Proof.
  intros Hp Hne. rewrite (diagram_boxes p st ns Hp Hne).
  unfold nodesWithCurrentPositions. rewrite <- !list_fmap_compose.
  apply list_fmap_ext. by intros i n _.
Qed.

End Diagram.

(** X14.  The diagram the component returns for a non-empty node sequence
    holds exactly one [foreignObject] per supplied node, in the order of the
    nodes, keyed by the node's id, placed at the node's current position and
    carrying the pointer-down handler for that id; and it holds exactly one
    [path] per edge that resolves. *)
Theorem diagram_structure
    (cn : string → option string → string) (p : Props) (st : State)
    (ns : list FlowNode) :
  nodes p = Some ns → ns ≠ [] →
  let tree := TamboReactFlow cn p st in
  let boxes := find_all "foreignObject" tree in
  el_key <$> boxes = (λ n, Some (node_id n)) <$> ns
  ∧ el_prop "x" <$> boxes
    = (λ n, Some (PVal (VNum (pos_x (getCurrentPosition (nodePositions st)
                                       (node_id n)))))) <$> ns
  ∧ el_prop "y" <$> boxes
    = (λ n, Some (PVal (VNum (pos_y (getCurrentPosition (nodePositions st)
                                       (node_id n)))))) <$> ns
  ∧ el_prop "onMouseDown" <$> boxes
    = (λ n, Some (PHandler (NodeMouseDown (node_id n)))) <$> ns
  ∧ length (find_all "path" tree)
    = length (filter (resolves ns) (default [] (edges p))).
Proof.
  intros Hp Hne tree boxes.
  assert (Hno : no_nodes (nodes p) = false) by (rewrite Hp; by destruct ns).
  assert (Hboxes : boxes
    = render_node p st <$> nodesWithCurrentPositions ns (nodePositions st))
    by by apply diagram_boxes.
  rewrite Hboxes. unfold nodesWithCurrentPositions.
  rewrite <- !list_fmap_compose.
  repeat split; try (apply list_fmap_ext; intros i n _; reflexivity).
  unfold tree, TamboReactFlow. rewrite Hno.
  change (find_all ?t (FlowErrorBoundaryElement _ _ _ ?c)) with (find_all t c).
  rewrite find_all_flow_container
    by (apply (bool_decide_unpack _); vm_compute; exact I).
  rewrite Hp. simpl default.
  rewrite find_all_render_node_path, app_nil_r.
  rewrite (proj2 (find_all_render_edges _ _)).
  destruct (edges p) as [es|]; [|done].
  rewrite render_edges_length. simpl default.
  fold (nodesWithCurrentPositions ns (nodePositions st)).
  f_equal. apply list_filter_iff. intros edge.
  apply (resolves_current_positions ns (nodePositions st) edge).
Qed.

Lemma diagram_structure_witness :
  let tree := TamboReactFlow cn_join
                (props_of (Some two_nodes) [step_edge; dangling_edge] true true)
                mid_drag_state in
  el_key <$> find_all "foreignObject" tree = [Some "a"; Some "b"]
  ∧ length (find_all "path" tree) = 1%nat.
Proof.
  destruct (diagram_structure cn_join
              (props_of (Some two_nodes) [step_edge; dangling_edge] true true)
              mid_drag_state two_nodes eq_refl)
    as (Hkeys & _ & _ & _ & Hpaths); [discriminate|].
  split; [exact Hkeys | exact Hpaths].
Defined.

(** X15.  The render that precedes the initialisation effect finds the store
    empty and draws every node at the origin, whatever its supplied position;
    once the effects have run on a collection with unique ids, every node is
    drawn at its supplied position. *)
Theorem first_render_at_origin
    (cn : string → option string → string) (p : Props) (st : State)
    (ns : list FlowNode) :
  nodes p = Some ns → ns ≠ [] → NoDup (node_id <$> ns) → nodePositions st = ∅ →
  (λ box, (el_prop "x" box, el_prop "y" box))
  <$> find_all "foreignObject" (TamboReactFlow cn p st)
  = (λ _, (Some (PVal (VNum (num 0))), Some (PVal (VNum (num 0))))) <$> ns
  ∧ (λ box, (el_prop "x" box, el_prop "y" box))
    <$> find_all "foreignObject" (TamboReactFlow cn p (receiveProps p st))
    = (λ n, (Some (PVal (VNum (pos_x (node_position n)))),
             Some (PVal (VNum (pos_y (node_position n)))))) <$> ns.
Proof.
  intros Hp Hne Hnd Hempty. split.
  - rewrite (diagram_boxes_xy cn p st ns Hp Hne), Hempty.
    apply list_fmap_ext. intros i n _.
    unfold getCurrentPosition. by rewrite lookup_empty.
  - rewrite (diagram_boxes_xy cn p _ ns Hp Hne).
    rewrite (proj1 (receiveProps_store p st ns Hp Hne)).
    apply list_fmap_ext. intros i n Hn%list_elem_of_lookup_2.
    unfold getCurrentPosition. by rewrite posMap_of_lookup_NoDup.
Qed.

Lemma first_render_at_origin_witness :
  (λ box, (el_prop "x" box, el_prop "y" box))
  <$> find_all "foreignObject"
        (TamboReactFlow cn_join (props_of (Some two_nodes) [] true false)
           initial_state)
  = (λ _, (Some (PVal (VNum (num 0))), Some (PVal (VNum (num 0))))) <$> two_nodes.
Proof.
  apply (first_render_at_origin cn_join (props_of (Some two_nodes) [] true false)
           initial_state two_nodes).
  - reflexivity.
  - discriminate.
  - apply (bool_decide_unpack _). vm_compute. exact I.
  - reflexivity.
Defined.

(** ** Rendering again *)

Section Rerender.

Variable cn : string → option string → string.

(** The first render is the rendering of the tree the component returns. *)
Lemma render_step_mount p st :
  mount cn (TamboReactFlow cn p st) = inr (render_step cn None p st).2.
Proof.
  unfold TamboReactFlow, render_step. destruct (no_nodes (nodes p)).
  - apply mount_loading_placeholder.
  - rewrite mount_boundary.
    by destruct (mount cn (flow_container cn p st)).
Qed.

Lemma render_step_failed b p st :
  hasError b = true → no_nodes (nodes p) = false →
  render_step cn (Some b) p st = (Some b, panel_of cn p).
Proof.
  intros Hb Hno. unfold render_step. rewrite Hno. simpl. rewrite Hb.
  unfold FlowErrorBoundary_render. by rewrite Hb.
Qed.

Lemma render_frames_failed b frames :
  hasError b = true →
  (∀ f, f ∈ frames → no_nodes (nodes f.1) = false) →
  render_frames cn (Some b) frames = (λ f, panel_of cn f.1) <$> frames.
Proof.
  intros Hb. induction frames as [|[p st] frames IH]; intros Hnodes; [done|].
  simpl. rewrite render_step_failed; [|done|apply (Hnodes (p, st)); set_solver].
  simpl. rewrite IH; [done|]. intros f Hf. apply Hnodes. set_solver.
Qed.

Lemma render_step_throws p st ns :
  nodes p = Some ns → (∃ n, n ∈ ns ∧ node_throws n) →
  ∃ b, hasError b = true
       ∧ render_step cn None p st = (Some b, panel_of cn p).
Proof.
  intros Hp Hthrows.
  assert (Hno : no_nodes (nodes p) = false).
  { rewrite Hp. destruct Hthrows as (n & Hn & _).
    destruct ns; [by apply elem_of_nil in Hn | done]. }
  unfold render_step. rewrite Hno.
  change (hasError (default boundary_initial None)) with false. cbv iota.
  destruct (mount_flow_container cn p st)
    as [[_ [err ->]] | [Hsound _]].
  - by exists (getDerivedStateFromError err).
  - exfalso. apply Hsound. by rewrite Hp.
Qed.

End Rerender.

(** X16.  The boundary never leaves its error state.  Once a render has
    failed because a node threw, every further render that has nodes shows the
    error panel, also for props whose nodes are all sound; the panel follows
    the variant, size and class of the current props.  Only a render without
    nodes, which unmounts the boundary and shows the placeholder, makes the
    next render start afresh. *)
Theorem error_panel_sticks
    (cn : string → option string → string)
    (p0 : Props) (st0 : State) (ns0 : list FlowNode)
    (frames : list (Props * State)) :
  nodes p0 = Some ns0 → (∃ n, n ∈ ns0 ∧ node_throws n) →
  (∀ f, f ∈ frames → no_nodes (nodes f.1) = false) →
  render_frames cn None ((p0, st0) :: frames)
  = (λ f, panel_of cn f.1) <$> ((p0, st0) :: frames)
  ∧ (∀ b p st later,
       no_nodes (nodes p) = true →
       render_frames cn b ((p, st) :: later)
       = loading_placeholder cn p :: render_frames cn None later).
Proof.
  intros Hp0 Hthrows Hframes. split.
  - destruct (render_step_throws cn p0 st0 ns0 Hp0 Hthrows) as (b & Hb & Hstep).
    simpl. rewrite Hstep. simpl. f_equal. by apply render_frames_failed.
  - intros b p st later Hno. simpl. unfold render_step. by rewrite Hno.
Qed.

Lemma error_panel_sticks_witness :
  render_frames cn_join None
    [ (props_of (Some odd_node) [] true false, initial_state);
      (props_of (Some two_nodes) [step_edge] true false, initial_state) ]
  = [ panel_of cn_join (props_of (Some odd_node) [] true false);
      panel_of cn_join (props_of (Some two_nodes) [step_edge] true false) ].
Proof.
  apply (error_panel_sticks cn_join (props_of (Some odd_node) [] true false)
           initial_state odd_node
           [(props_of (Some two_nodes) [step_edge] true false, initial_state)]).
  - reflexivity.
  - exists (typed_node "a" "decision" 0 0). split.
    + apply list_elem_of_singleton. reflexivity.
    + exists (TypeError "Cannot read properties of undefined"). reflexivity.
  - intros f Hf. apply list_elem_of_singleton in Hf. rewrite Hf. reflexivity.
Defined.
